(** * The agent <-> customer-service mailbox ([my_assistant/utils/message_queue.py])

    A shallow embedding of the [MessageQueue] class and of the part of the
    asyncio event loop its two [wait_for_*] coroutines depend on, followed by
    the properties of the mailbox.

    - The object's attributes become the fields of the record [MessageQueue];
      every method body that runs without suspending is a function on that
      record.
    - A call of [wait_for_cs_response] / [wait_for_agent_message] is a task of
      the event loop.  It is either parked inside [Event.wait()], woken (its
      future is resolved and its continuation is scheduled), or done.  The
      configuration of the system is the mailbox together with the table of
      such tasks, and the loop's atomic actions are the operations [Op].
    - [datetime.now().isoformat()] is an input of the two send methods.

    The library calls are modelled as asyncio defines them:
    - [Event.wait()] returns at once, without suspending, when the flag is
      set; otherwise the caller is suspended until [Event.set()];
    - [Event.set()] on an unset flag sets it and wakes every waiter; on a set
      flag it does nothing; [Event.clear()] resets the flag;
    - [asyncio.wait_for(aw, timeout)] runs [aw] in the calling task and
      raises [TimeoutError] when the deadline passes first; with a timeout
      that is not positive it cancels [aw] before it starts;
    - a timeout is a rational number of seconds.
    The loop resumes woken tasks in the order in which they were woken; the
    model lets any woken task run next, which includes that order. *)

From Stdlib Require Import QArith.
From stdpp Require Import base option list strings gmap pretty.

(** ** Data model *)

(** The ["sender"] entry of a message dictionary. *)
Inductive Sender : Type :=
| negotiation_agent
| cs_simulator.

(** The dictionary [message_data] built by the two send methods. *)
Record Message : Type := mkMessage {
  text : string;
  timestamp : string;
  sender : Sender
}.

(** The attributes set by [MessageQueue.__init__].  The two deques are lists
    whose head is the left end; an [asyncio.Event] is its internal flag (its
    waiters are the parked tasks of the configuration, see [Task]). *)
Record MessageQueue : Type := mkMessageQueue {
  agent_to_cs : list Message;
  cs_to_agent : list Message;
  agent_message_ready : bool;
  cs_response_ready : bool;
  conversation_history : list Message;
  active : bool
}.

(** [MessageQueue.__init__] *)
Definition MessageQueue_init : MessageQueue :=
  {| agent_to_cs := [];
     cs_to_agent := [];
     agent_message_ready := false;
     cs_response_ready := false;
     conversation_history := [];
     active := false |}.

(** ** Methods that never suspend *)

(** [send_from_agent]: the coroutine has no [await] in its body, so it runs
    to completion in one piece. *)
Definition send_from_agent (now message : string) (self : MessageQueue)
  : MessageQueue :=
  let message_data :=
    {| text := message; timestamp := now; sender := negotiation_agent |} in
  {| agent_to_cs := agent_to_cs self ++ [message_data];
     cs_to_agent := cs_to_agent self;
     agent_message_ready := true;
     cs_response_ready := cs_response_ready self;
     conversation_history := conversation_history self ++ [message_data];
     active := true |}.

(** [send_from_cs] *)
Definition send_from_cs (now message : string) (self : MessageQueue)
  : MessageQueue :=
  let message_data :=
    {| text := message; timestamp := now; sender := cs_simulator |} in
  {| agent_to_cs := agent_to_cs self;
     cs_to_agent := cs_to_agent self ++ [message_data];
     agent_message_ready := agent_message_ready self;
     cs_response_ready := true;
     conversation_history := conversation_history self ++ [message_data];
     active := active self |}.

(** [get_conversation_history]: a copy of the list. *)
Definition get_conversation_history (self : MessageQueue) : list Message :=
  conversation_history self.

(** [clear_history] *)
Definition clear_history (self : MessageQueue) : MessageQueue :=
  {| agent_to_cs := agent_to_cs self;
     cs_to_agent := cs_to_agent self;
     agent_message_ready := agent_message_ready self;
     cs_response_ready := cs_response_ready self;
     conversation_history := [];
     active := active self |}.

(** [is_active] *)
Definition is_active (self : MessageQueue) : bool := active self.

(** [end_conversation] *)
Definition end_conversation (self : MessageQueue) : MessageQueue :=
  {| agent_to_cs := agent_to_cs self;
     cs_to_agent := cs_to_agent self;
     agent_message_ready := agent_message_ready self;
     cs_response_ready := cs_response_ready self;
     conversation_history := conversation_history self;
     active := false |}.

(** ** The two waits *)

(** Which branch a finished wait left through: the [if] branch with the
    popped dictionary, the [else] branch, or the [except] clause. *)
Inductive Outcome : Type :=
| Got (m : Message)
| Empty
| TimedOut.

Inductive Exception : Type :=
| TimeoutError (msg : string).

(** What the caller of a wait observes. *)
Inductive Result : Type :=
| Return (s : string)
| Raise (e : Exception).

(** The part of [wait_for_cs_response] that follows the [await]:
    [if self.cs_to_agent: popleft, clear, return text  else: return ""]. *)
Definition cs_response_after_wait (self : MessageQueue)
  : Outcome * MessageQueue :=
  match cs_to_agent self with
  | response_data :: rest =>
      (Got response_data,
       {| agent_to_cs := agent_to_cs self;
          cs_to_agent := rest;
          agent_message_ready := agent_message_ready self;
          cs_response_ready := false;
          conversation_history := conversation_history self;
          active := active self |})
  | [] => (Empty, self)
  end.

(** The same part of [wait_for_agent_message]. *)
Definition agent_message_after_wait (self : MessageQueue)
  : Outcome * MessageQueue :=
  match agent_to_cs self with
  | message_data :: rest =>
      (Got message_data,
       {| agent_to_cs := rest;
          cs_to_agent := cs_to_agent self;
          agent_message_ready := false;
          cs_response_ready := cs_response_ready self;
          conversation_history := conversation_history self;
          active := active self |})
  | [] => (Empty, self)
  end.

(** A direction names the wait that serves it. *)
Inductive Direction : Type :=
| AgentToCs   (* served by [wait_for_agent_message] *)
| CsToAgent.  (* served by [wait_for_cs_response] *)

Definition pending (d : Direction) (self : MessageQueue) : list Message :=
  match d with
  | AgentToCs => agent_to_cs self
  | CsToAgent => cs_to_agent self
  end.

Definition ready (d : Direction) (self : MessageQueue) : bool :=
  match d with
  | AgentToCs => agent_message_ready self
  | CsToAgent => cs_response_ready self
  end.

Definition after_wait (d : Direction) (self : MessageQueue)
  : Outcome * MessageQueue :=
  match d with
  | AgentToCs => agent_message_after_wait self
  | CsToAgent => cs_response_after_wait self
  end.

(** The argument of the [TimeoutError] raised by the [except] clause. *)
Definition timeout_message (d : Direction) : string :=
  match d with
  | AgentToCs => "Timeout waiting for agent message"
  | CsToAgent => "Timeout waiting for CS response"
  end.

(** The value returned, or the exception raised. *)
Definition wait_result (d : Direction) (o : Outcome) : Result :=
  match o with
  | Got m => Return (text m)
  | Empty => Return ""
  | TimedOut => Raise (TimeoutError (timeout_message d))
  end.

(** [if timeout:] on an [Optional[float]]: [None] and zero are false. *)
Definition truthy (timeout : option Q) : bool :=
  match timeout with
  | None => false
  | Some t => negb (Qeq_bool t 0)
  end.

(** ** Tasks and the event loop *)

Inductive Status : Type :=
| Parked           (* suspended in [Event.wait()], future pending *)
| Woken            (* future resolved by [Event.set()], not yet resumed *)
| Done (o : Outcome).

(** One call of a wait.  [timer] is the deadline armed by [asyncio.wait_for];
    it is [None] when the call took the [else] branch of [if timeout:]. *)
Record Task : Type := mkTask {
  waits_on : Direction;
  timer : option Q;
  status : Status
}.

Record Config : Type := mkConfig {
  mq : MessageQueue;
  tasks : list Task
}.

Definition finish (t : Task) (o : Outcome) : Task :=
  {| waits_on := waits_on t; timer := timer t; status := Done o |}.

(** [Event.set()]: when the flag is not yet set, every waiter's future is
    resolved; when it is already set, nothing happens. *)
Definition wake (d : Direction) (t : Task) : Task :=
  match d, waits_on t, status t with
  | AgentToCs, AgentToCs, Parked
  | CsToAgent, CsToAgent, Parked =>
      {| waits_on := waits_on t; timer := timer t; status := Woken |}
  | _, _, _ => t
  end.

Definition event_set (was_set : bool) (d : Direction) (ts : list Task)
  : list Task :=
  if was_set then ts else wake d <$> ts.

(** A task calls [wait_for_*(timeout)] and runs up to its first suspension.
    - [asyncio.wait_for] with a timeout that is not positive cancels the
      awaitable before it starts and raises [TimeoutError];
    - [Event.wait()] returns at once when the flag is set, and the rest of
      the body runs in the same piece;
    - otherwise the task parks. *)
Definition call_wait (d : Direction) (timeout : option Q) (c : Config)
  : Config :=
  let armed := if truthy timeout then timeout else None in
  match armed with
  | Some t =>
      if Qle_bool t 0 then
        {| mq := mq c;
           tasks := tasks c ++
                    [{| waits_on := d; timer := armed; status := Done TimedOut |}] |}
      else if ready d (mq c) then
        let '(o, q) := after_wait d (mq c) in
        {| mq := q;
           tasks := tasks c ++
                    [{| waits_on := d; timer := armed; status := Done o |}] |}
      else
        {| mq := mq c;
           tasks := tasks c ++
                    [{| waits_on := d; timer := armed; status := Parked |}] |}
  | None =>
      if ready d (mq c) then
        let '(o, q) := after_wait d (mq c) in
        {| mq := q;
           tasks := tasks c ++
                    [{| waits_on := d; timer := None; status := Done o |}] |}
      else
        {| mq := mq c;
           tasks := tasks c ++
                    [{| waits_on := d; timer := None; status := Parked |}] |}
  end.

(** The two coroutines under their own names, up to the first suspension. *)
Definition wait_for_agent_message (timeout : option Q) (c : Config) : Config :=
  call_wait AgentToCs timeout c.

Definition wait_for_cs_response (timeout : option Q) (c : Config) : Config :=
  call_wait CsToAgent timeout c.

(** The atomic actions of the system.  Tasks are named by their position in
    the task table, in the order in which the waits were called. *)
Inductive Op : Type :=
| SendFromAgent (now message : string)
| SendFromCs (now message : string)
| CallWait (d : Direction) (timeout : option Q)
| Resume (i : nat)      (* the loop runs the continuation of woken task [i] *)
| Timeout (i : nat)     (* the timer of task [i] fires *)
| ClearHistory
| EndConversation.

(** One action; [None] when the action is not enabled. *)
Definition step (op : Op) (c : Config) : option Config :=
  match op with
  | SendFromAgent now message =>
      Some {| mq := send_from_agent now message (mq c);
              tasks := event_set (agent_message_ready (mq c)) AgentToCs (tasks c) |}
  | SendFromCs now message =>
      Some {| mq := send_from_cs now message (mq c);
              tasks := event_set (cs_response_ready (mq c)) CsToAgent (tasks c) |}
  | CallWait d timeout => Some (call_wait d timeout c)
  | Resume i =>
      match tasks c !! i with
      | Some t =>
          match status t with
          | Woken =>
              let '(o, q) := after_wait (waits_on t) (mq c) in
              Some {| mq := q; tasks := <[i := finish t o]> (tasks c) |}
          | _ => None
          end
      | None => None
      end
  | Timeout i =>
      match tasks c !! i with
      | Some t =>
          match status t, timer t with
          | Parked, Some _ | Woken, Some _ =>
              Some {| mq := mq c; tasks := <[i := finish t TimedOut]> (tasks c) |}
          | _, _ => None
          end
      | None => None
      end
  | ClearHistory => Some {| mq := clear_history (mq c); tasks := tasks c |}
  | EndConversation => Some {| mq := end_conversation (mq c); tasks := tasks c |}
  end.

(** A sequence of actions, left to right. *)
Fixpoint run (ops : list Op) (c : Config) : option Config :=
  match ops with
  | [] => Some c
  | op :: ops' =>
      match step op c with
      | Some c' => run ops' c'
      | None => None
      end
  end.

(** A fresh mailbox and no task. *)
Definition init : Config := {| mq := MessageQueue_init; tasks := [] |}.

(** What the caller of task [i] has observed, if the task is done. *)
Definition observed (i : nat) (c : Config) : option Result :=
  match tasks c !! i with
  | Some t =>
      match status t with
      | Done o => Some (wait_result (waits_on t) o)
      | _ => None
      end
  | None => None
  end.

Definition status_of (i : nat) (c : Config) : option Status :=
  status <$> tasks c !! i.

(** The dictionary that the send of direction [d] builds. *)
Definition message_data (d : Direction) (now message : string) : Message :=
  {| text := message;
     timestamp := now;
     sender := match d with
               | AgentToCs => negotiation_agent
               | CsToAgent => cs_simulator
               end |}.

#[global] Instance Direction_eq_dec : EqDecision Direction.
Proof. solve_decision. Defined.

(** The message a finished task received in direction [d], if any. *)
Definition got (d : Direction) (t : Task) : option Message :=
  match status t with
  | Done (Got m) => if decide (waits_on t = d) then Some m else None
  | _ => None
  end.

(** All messages that the tasks of a table received in direction [d]. *)
Definition received (d : Direction) (ts : list Task) : list Message :=
  omap (got d) ts.

(** The message that an action enqueues in direction [d], if any. *)
Definition sent_by (d : Direction) (op : Op) : option Message :=
  match op, d with
  | SendFromAgent now message, AgentToCs
  | SendFromCs now message, CsToAgent => Some (message_data d now message)
  | _, _ => None
  end.

(** The messages sent in direction [d] by a trace, in call order. *)
Definition sent (d : Direction) (ops : list Op) : list Message :=
  omap (sent_by d) ops.

(** The send of one direction. *)
Definition send_op (d : Direction) (now message : string) : Op :=
  match d with
  | AgentToCs => SendFromAgent now message
  | CsToAgent => SendFromCs now message
  end.

Definition is_send (op : Op) : bool :=
  match op with
  | SendFromAgent _ _ | SendFromCs _ _ => true
  | _ => false
  end.

(** The actions that belong to a wait: its call, its resumption, its
    timeout. *)
Definition is_wait_op (op : Op) : bool :=
  match op with
  | CallWait _ _ | Resume _ | Timeout _ => true
  | _ => false
  end.

Definition is_clear (op : Op) : bool :=
  match op with ClearHistory => true | _ => false end.

Definition is_send_on (d : Direction) (op : Op) : bool :=
  match d, op with
  | AgentToCs, SendFromAgent _ _ | CsToAgent, SendFromCs _ _ => true
  | _, _ => false
  end.

(** The task that an action of a wait runs. *)
Definition waiter (op : Op) (c : Config) : option nat :=
  match op with
  | CallWait _ _ => Some (length (tasks c))
  | Resume i | Timeout i => Some i
  | _ => None
  end.

(** The message that action [op], taken from [c] to [c'], hands to its
    caller, with its direction. *)
Definition delivered (op : Op) (c c' : Config) : option (Direction * Message) :=
  match waiter op c with
  | Some i =>
      match tasks c' !! i with
      | Some t =>
          match status t with
          | Done (Got m) => Some (waits_on t, m)
          | _ => None
          end
      | None => None
      end
  | None => None
  end.

(** The same, as the list of messages handed over in direction [d]. *)
Definition handed (d : Direction) (op : Op) (c c' : Config) : list Message :=
  match delivered op c c' with
  | Some (d', m) => if decide (d' = d) then [m] else []
  | None => []
  end.

(** The messages handed to waiters of direction [d] along a run, in the
    order in which they were handed over. *)
Fixpoint deliveries (d : Direction) (ops : list Op) (c : Config) : list Message :=
  match ops with
  | [] => []
  | op :: ops' =>
      match step op c with
      | Some c' => handed d op c c' ++ deliveries d ops' c'
      | None => []
      end
  end.

(** How one action may change the task at position [i]. *)
Inductive task_step (op : Op) (i : nat) (t : Task) : Task → Prop :=
| ts_same : task_step op i t t
| ts_wake now message :
    op = send_op (waits_on t) now message → status t = Parked →
    task_step op i t {| waits_on := waits_on t; timer := timer t; status := Woken |}
| ts_resume o :
    op = Resume i → status t = Woken → o ≠ TimedOut →
    task_step op i t (finish t o)
| ts_timeout deadline :
    op = Timeout i → status t = Parked ∨ status t = Woken →
    timer t = Some deadline →
    task_step op i t (finish t TimedOut).

(** Number of calls of [send_from_agent] and [send_from_cs] in a trace. *)
Definition total_sends (ops : list Op) : nat :=
  length (filter (λ op, is_send op = true) ops).

(** Number of sends after the last [clear_history] of a trace, starting
    from a count [n]. *)
Fixpoint sends_since_clear (ops : list Op) (n : nat) : nat :=
  match ops with
  | [] => n
  | op :: ops' =>
      sends_since_clear ops'
        match op with
        | ClearHistory => 0
        | _ => if is_send op then S n else n
        end
  end.

(** ** Further vocabulary for runs of the mailbox *)

#[global] Instance Sender_eq_dec : EqDecision Sender.
Proof. solve_decision. Defined.

(** The ["sender"] that the send of direction [d] writes. *)
Definition sender_of (d : Direction) : Sender :=
  match d with
  | AgentToCs => negotiation_agent
  | CsToAgent => cs_simulator
  end.

(** The message that an action appends to the history, if any. *)
Definition logged_by (op : Op) : option Message :=
  match op with
  | SendFromAgent now message => Some (message_data AgentToCs now message)
  | SendFromCs now message => Some (message_data CsToAgent now message)
  | _ => None
  end.

(** The value of the [active] attribute after a trace that starts with the
    value [b]: the last [send_from_agent] or [end_conversation] decides. *)
Fixpoint active_after (ops : list Op) (b : bool) : bool :=
  match ops with
  | [] => b
  | op :: ops' =>
      active_after ops'
        match op with
        | SendFromAgent _ _ => true
        | EndConversation => false
        | _ => b
        end
  end.

(** Everything of a configuration except the history and the flag. *)
Definition channels (c : Config)
  : list Message * list Message * bool * bool * list Task :=
  (agent_to_cs (mq c), cs_to_agent (mq c),
   agent_message_ready (mq c), cs_response_ready (mq c), tasks c).

(** Each message is sent and then waited for, before the next is sent: the
    trace of a strict alternation on direction [d]; an element of [l] is a
    timestamp and a text. *)
Definition exchange (d : Direction) (l : list (string * string)) : list Op :=
  l ≫= λ '(now, message), [send_op d now message; CallWait d None].

(** ** The process-wide queue *)

(** The objects of class [MessageQueue] created so far, by address, each
    together with the tasks that wait on its two events, and the module
    variable [_global_queue], which holds the address of the shared object
    or [None]. *)
Record Globals : Type := mkGlobals {
  heap : list Config;
  _global_queue : option nat
}.

(** The state of the module when it has just been imported. *)
Definition Globals_init : Globals := {| heap := []; _global_queue := None |}.

(** [get_global_queue]: creates the object on first use. *)
Definition get_global_queue (g : Globals) : nat * Globals :=
  match _global_queue g with
  | None =>
      (length (heap g),
       {| heap := heap g ++ [init]; _global_queue := Some (length (heap g)) |})
  | Some a => (a, g)
  end.

(** [reset_global_queue] *)
Definition reset_global_queue (g : Globals) : Globals :=
  {| heap := heap g; _global_queue := None |}.

(** The object at an address, and the store after an action on it. *)
Definition queue_at (a : nat) (g : Globals) : Config :=
  default init (heap g !! a).

Definition act_on (a : nat) (op : Op) (g : Globals) : Globals :=
  {| heap := <[a := default (queue_at a g) (step op (queue_at a g))]> (heap g);
     _global_queue := _global_queue g |}.

(** Every address in use is the address of an object. *)
Definition Globals_wf (g : Globals) : Prop :=
  ∀ a, _global_queue g = Some a → a < length (heap g).

(** ** Python values used by the callers *)

Inductive PyError : Type :=
| KeyError (key : string)
| TypeError
| EOFError.

Inductive Except (A : Type) : Type :=
| Ok (a : A)
| Err (e : PyError).
Arguments Ok {A} a.
Arguments Err {A} e.

(** A value of the agent state: a counter, or the dictionary stored by
    [record_negotiation_outcome]. *)
Inductive Value : Type :=
| VInt (n : Z)
| VDict (items : list (string * string)).

(** The line feed, and [s * n]. *)
Definition nl : string := String (Ascii.ascii_of_nat 10) EmptyString.

Fixpoint str_mul (s : string) (n : nat) : string :=
  match n with
  | 0 => ""
  | S n' => s +:+ str_mul s n'
  end.

(** [print(s)] and [print(s, end='')] on the text written so far. *)
Definition print (s : string) (out : string) : string := out +:+ s +:+ nl.
Definition print_no_newline (s : string) (out : string) : string := out +:+ s.

(** The value of the ["sender"] key. *)
Definition sender_name (s : Sender) : string :=
  match s with
  | negotiation_agent => "negotiation_agent"
  | cs_simulator => "cs_simulator"
  end.

(** [entry[key]] on a message dictionary: its keys are ["text"],
    ["timestamp"] and ["sender"]. *)
Definition getitem (entry : Message) (key : string) : Except string :=
  if decide (key = "text") then Ok (text entry)
  else if decide (key = "timestamp") then Ok (timestamp entry)
  else if decide (key = "sender") then Ok (sender_name (sender entry))
  else Err (KeyError key).

(** [agent_state[count_key] = agent_state.get(count_key, 0) + 1]; adding 1
    to a dictionary is a [TypeError], raised before anything is stored. *)
Definition increment (count_key : string) (agent_state : gmap string Value)
  : Except (gmap string Value) :=
  match default (VInt 0) (agent_state !! count_key) with
  | VInt n => Ok (<[count_key := VInt (n + 1)]> agent_state)
  | VDict _ => Err TypeError
  end.

(** ** The tools of the negotiation agent ([agents/negotiation_agent.py]) *)

Module NegotiationAgent.

(** [send_message_to_cs]: count, fetch the global queue, send, confirm. *)
Definition send_message_to_cs (now message : string)
    (agent_state : gmap string Value) (g : Globals)
  : Except string * gmap string Value * Globals :=
  match increment "messages_sent_to_cs" agent_state with
  | Err e => (Err e, agent_state, g)
  | Ok agent_state' =>
      let '(queue, g1) := get_global_queue g in
      (Ok ("Message sent to CS: '" +:+ message +:+ "'"),
       agent_state',
       act_on queue (SendFromAgent now message) g1)
  end.


(** [len([h for h in history if h['role'] == role])] *)
Fixpoint count_role (role : string) (history : list Message) : Except nat :=
  match history with
  | [] => Ok 0
  | h :: rest =>
      match getitem h "role" with
      | Err e => Err e
      | Ok r =>
          match count_role role rest with
          | Err e => Err e
          | Ok n => Ok (if decide (r = role) then S n else n)
          end
      end
  end.

Section text.
(** What Python does to text that is not modelled here: how an f-string
    renders a float and a value of the agent state, [str.upper] and the
    slice [s[:n]]. *)
Variable str_float : Q → string.
Variable str_value : Value → string.
Variable str_upper : string → string.
Variable str_prefix : nat → string → string.


(** The loop over [recent] at the end of [analyze_negotiation_progress]. *)
Fixpoint append_recent (recent : list Message) (analysis : string)
  : Except string :=
  match recent with
  | [] => Ok analysis
  | entry :: rest =>
      match getitem entry "role" with
      | Err e => Err e
      | Ok role =>
          match getitem entry "message" with
          | Err e => Err e
          | Ok message =>
              append_recent rest
                (analysis +:+ nl +:+ "  " +:+ str_upper role +:+ ": " +:+
                 str_prefix 100 message +:+ "...")
          end
      end
  end.

(** [analyze_negotiation_progress] *)
Definition analyze_negotiation_progress
    (agent_state : gmap string Value) (g : Globals)
  : Except string * Globals :=
  let '(queue, g1) := get_global_queue g in
  let history := get_conversation_history (mq (queue_at queue g1)) in
  match history with
  | [] => (Ok "No conversation history yet. Negotiation has not started.", g1)
  | _ :: _ =>
      let total_exchanges := length history in
      match count_role "agent" history with
      | Err e => (Err e, g1)
      | Ok agent_messages =>
          match count_role "cs" history with
          | Err e => (Err e, g1)
          | Ok cs_messages =>
              let consultations :=
                default (VInt 0) (agent_state !! "tool_consult_context_agent_count") in
              let messages_sent :=
                default (VInt 0) (agent_state !! "messages_sent_to_cs") in
              let responses_received :=
                default (VInt 0) (agent_state !! "responses_received_from_cs") in
              let analysis :=
                nl +:+ "Negotiation Progress Analysis:" +:+ nl +:+
                "- Total exchanges: " +:+ pretty total_exchanges +:+ nl +:+
                "- Messages from agent (customer): " +:+ pretty agent_messages +:+ nl +:+
                "- Messages from CS: " +:+ pretty cs_messages +:+ nl +:+
                "- Context Agent consultations: " +:+ str_value consultations +:+ nl +:+
                "- Messages sent: " +:+ str_value messages_sent +:+ nl +:+
                "- Responses received: " +:+ str_value responses_received +:+ nl +:+
                nl +:+ "Recent conversation:" +:+ nl in
              let recent :=
                if decide (6 < length history)
                then drop (length history - 6) history
                else history in
              (append_recent recent analysis, g1)
          end
      end
  end.

End text.


End NegotiationAgent.


(** ** The CS simulator ([cli/cs_simulator_cli.py]) *)

(** [str(e)] for the exceptions that can reach [except Exception as e]. *)
Definition str_error (e : PyError) : string :=
  match e with
  | KeyError key => "'" +:+ key +:+ "'"
  | TypeError => "unsupported operand type(s) for +: 'dict' and 'int'"
  | EOFError => "EOF when reading a line"
  end.

Module CSSimulatorCLI.

(** The attributes of a [CSSimulatorCLI]: [queue] is the address of the
    object that [get_global_queue()] returned to [__init__]. *)
Record CLI : Type := mkCLI {
  queue : nat;
  running : bool
}.

(** [CSSimulatorCLI.__init__] *)
Definition __init__ (g : Globals) : CLI * Globals :=
  let '(a, g1) := get_global_queue g in
  ({| queue := a; running := false |}, g1).

(** [print_header] *)
Definition print_header (out : string) : string :=
  let out := print (nl +:+ str_mul "=" 70) out in
  let out := print "  AMAZON CUSTOMER SERVICE SIMULATOR" out in
  let out := print (str_mul "=" 70) out in
  let out := print (nl +:+ "You are now acting as an Amazon Customer Service representative.") out in
  let out := print "Wait for customer messages and respond appropriately." out in
  let out := print (nl +:+ "Commands:") out in
  let out := print "  /history  - Show conversation history" out in
  let out := print "  /quit     - Exit the simulator" out in
  print (str_mul "=" 70 +:+ nl) out.

(** [print_separator] *)
Definition print_separator (out : string) : string :=
  print (str_mul "-" 70) out.

(** [cleanup] *)
Definition cleanup (out : string) : string :=
  let out := print (nl +:+ "CS Simulator session ended.") out in
  print ("Conversation history preserved in message queue." +:+ nl) out.

(** [wait_for_customer_message], up to the [await]: the position of the wait
    among the tasks of the queue, and the store in which it has been called. *)
Definition wait_for_customer_message_call (self : CLI) (g : Globals)
  : nat * Globals :=
  (length (tasks (queue_at (queue self) g)),
   act_on (queue self) (CallWait AgentToCs (Some 300%Q)) g).

(** [wait_for_customer_message], from the completion of the [await]: the
    message, or [None] after a timeout. *)
Definition wait_for_customer_message_return (o : Outcome) : option string :=
  match wait_result AgentToCs o with
  | Return message => Some message
  | Raise (TimeoutError _) => None
  end.

(** [send_cs_response] *)
Definition send_cs_response (now response : string) (self : CLI) (g : Globals)
  : Globals :=
  act_on (queue self) (SendFromCs now response) g.

Section text.
(** [str.strip], [str.lower] and [str.upper] are not modelled here. *)
Variable str_strip : string → string.
Variable str_lower : string → string.
Variable str_upper : string → string.

(** The body of the [for] loop of [display_history], from entry number [i]. *)
Fixpoint display_entries (i : nat) (history : list Message) (out : string)
  : Except unit * string :=
  match history with
  | [] => (Ok (), out)
  | entry :: rest =>
      match getitem entry "role" with
      | Err e => (Err e, out)
      | Ok role =>
          let role := str_upper role in
          match getitem entry "message" with
          | Err e => (Err e, out)
          | Ok message =>
              match getitem entry "timestamp" with
              | Err e => (Err e, out)
              | Ok timestamp =>
                  let out := print (nl +:+ "[" +:+ pretty i +:+ "] " +:+ role +:+
                                    " - " +:+ timestamp) out in
                  let out := print ("    " +:+ message) out in
                  display_entries (S i) rest out
              end
          end
      end
  end.

(** [display_history] *)
Definition display_history (self : CLI) (g : Globals) (out : string)
  : Except unit * string :=
  let history := get_conversation_history (mq (queue_at (queue self) g)) in
  match history with
  | [] => (Ok (), print (nl +:+ "[No conversation history yet]" +:+ nl) out)
  | _ :: _ =>
      let out := print (nl +:+ str_mul "=" 70) out in
      let out := print "  CONVERSATION HISTORY" out in
      let out := print (str_mul "=" 70) out in
      match display_entries 1 history out with
      | (Err e, out) => (Err e, out)
      | (Ok _, out) => (Ok (), print (nl +:+ str_mul "=" 70 +:+ nl) out)
      end
  end.

(** How the inner [while True] of [run] is left. *)
Inductive Exit : Type :=
| Sent
| Quit
| Raised (e : PyError).

(** The inner [while True] of [run]: [stdin] holds the lines that [input()]
    will return, and [input()] raises [EOFError] when none is left; [now] is
    the time of the send, if one happens. *)
Fixpoint command_loop (now : string) (self : CLI) (stdin : list string)
    (g : Globals) (out : string)
  : Exit * CLI * list string * Globals * string :=
  let out := print_no_newline (nl +:+ "💼 YOU (Amazon CS): ") out in
  match stdin with
  | [] => (Raised EOFError, self, [], g, out)
  | line :: stdin' =>
      let cs_response := str_strip line in
      if decide (str_lower cs_response = "/quit") then
        let out := print (nl +:+ "[Exiting CS Simulator...]") out in
        (Quit, {| queue := queue self; running := false |}, stdin', g, out)
      else if decide (str_lower cs_response = "/history") then
        match display_history self g out with
        | (Err e, out) => (Raised e, self, stdin', g, out)
        | (Ok _, out) => command_loop now self stdin' g out
        end
      else if decide (cs_response = "") then
        let out := print "  ⚠️  Please enter a response or use /quit to exit" out in
        command_loop now self stdin' g out
      else
        let g := send_cs_response now cs_response self g in
        let out := print "  ✓ Response sent to customer" out in
        (Sent, self, stdin', g, out)
  end.

(** What [run] does next: it is suspended in the wait at position [i] of the
    queue's tasks, or it has returned. *)
Inductive Next : Type :=
| Awaiting (i : nat)
| Ended.

(** [run] from the completion of its pending wait with outcome [o] up to its
    next suspension or its end; [input()] does not give control back to the
    event loop, so all of this is one piece.  A wait that finds the event
    set completes without suspending and the loop goes on; [fuel] bounds the
    number of such rounds.  [clock n] is the time at which entry number [n]
    of the history is written. *)
Fixpoint run_resume (fuel : nat) (clock : nat → string) (o : Outcome)
    (self : CLI) (stdin : list string) (g : Globals) (out : string)
  : option (Next * CLI * list string * Globals * string) :=
  match fuel with
  | 0 => None
  | S fuel' =>
      (* the next round of [while self.running] *)
      let again (self : CLI) (stdin : list string) (g : Globals) (out : string) :=
        if running self then
          let '(i, g) := wait_for_customer_message_call self g in
          match status <$> tasks (queue_at (queue self) g) !! i with
          | Some (Done o') => run_resume fuel' clock o' self stdin g out
          | _ => Some (Awaiting i, self, stdin, g, out)
          end
        else Some (Ended, self, stdin, g, cleanup out) in
      match wait_for_customer_message_return o with
      | None =>
          let out := print (nl +:+ "[Timeout] No customer message received. Still waiting...") out in
          again self stdin g out
      | Some customer_message =>
          let out := print_separator out in
          let out := print (nl +:+ "🗣️  CUSTOMER: " +:+ customer_message +:+ nl) out in
          let out := print_separator out in
          let now := clock (length (conversation_history (mq (queue_at (queue self) g)))) in
          match command_loop now self stdin g out with
          | (Raised e, self, stdin, g, out) =>
              let out := print (nl +:+ nl +:+ "[Error] " +:+ str_error e) out in
              Some (Ended, self, stdin, g, cleanup out)
          | (Quit, self, stdin, g, out) =>
              Some (Ended, self, stdin, g, cleanup out)
          | (Sent, self, stdin, g, out) =>
              let out := print (nl +:+ "[Waiting for next customer message...]" +:+ nl) out in
              again self stdin g out
          end
      end
  end.

(** [run] from its call to its first suspension or its end. *)
Definition run (fuel : nat) (clock : nat → string)
    (self : CLI) (stdin : list string) (g : Globals) (out : string)
  : option (Next * CLI * list string * Globals * string) :=
  let self := {| queue := queue self; running := true |} in
  let out := print_header out in
  let out := print ("[CS Simulator Ready] Waiting for customer to initiate contact..." +:+ nl) out in
  let '(i, g) := wait_for_customer_message_call self g in
  match status <$> tasks (queue_at (queue self) g) !! i with
  | Some (Done o') => run_resume fuel clock o' self stdin g out
  | _ => Some (Awaiting i, self, stdin, g, out)
  end.

End text.

End CSSimulatorCLI.

(** The counter stored under a key of the agent state, read as
    [agent_state.get(key, 0)]; [None] when the value is not a number. *)
Definition count_of (key : string) (agent_state : gmap string Value) : option Z :=
  match default (VInt 0) (agent_state !! key) with
  | VInt n => Some n
  | VDict _ => None
  end.

(** ** Sequences of tool calls *)








(** A reply as the simulator accepts it: written by CS, not empty, and not
    one of its two commands. *)
Definition proper_reply (str_lower : string → string) (m : Message) : Prop :=
  sender m = cs_simulator ∧ text m ≠ "" ∧
  str_lower (text m) ≠ "/quit" ∧ str_lower (text m) ≠ "/history".

(** The store [g'] differs from [g] by the replies [replies] appended to
    the history and to the CS-to-agent queue of the object at [q], and by
    waits on its agent-to-CS side; nothing else has changed. *)
Definition replied (str_lower : string → string) (q : nat) (g g' : Globals)
    (replies : list Message) : Prop :=
  length (heap g') = length (heap g) ∧
  _global_queue g' = _global_queue g ∧
  (∀ b, b ≠ q → queue_at b g' = queue_at b g) ∧
  conversation_history (mq (queue_at q g')) =
    conversation_history (mq (queue_at q g)) ++ replies ∧
  cs_to_agent (mq (queue_at q g')) = cs_to_agent (mq (queue_at q g)) ++ replies ∧
  active (mq (queue_at q g')) = active (mq (queue_at q g)) ∧
  Forall (proper_reply str_lower) replies.

(** Inversion of one enabled action. *)
Ltac step_inv H :=
  match type of H with
  | step ?op ?c = Some ?c' =>
      destruct op as [now message|now message|d timeout|i|i| |];
      simpl in H;
      [ | | | destruct (tasks c !! i) as [t|] eqn:Hlook; [|discriminate H];
              destruct (status t) eqn:Hstatus; try discriminate H;
              destruct (after_wait (waits_on t) (mq c)) as [o q] eqn:Hafter
          | destruct (tasks c !! i) as [t|] eqn:Hlook; [|discriminate H];
            destruct (status t) eqn:Hstatus; try discriminate H;
            destruct (timer t) as [deadline|] eqn:Htimer; try discriminate H
          | | ];
      injection H as <-
  end.

(** ** Basic facts about the methods *)

Section after_wait_facts.
Context (d : Direction) (self : MessageQueue).

Lemma after_wait_nil :
  pending d self = [] → after_wait d self = (Empty, self).
Proof.
  destruct d; simpl; unfold agent_message_after_wait, cs_response_after_wait;
    intros ->; reflexivity.
Qed.

Lemma after_wait_cons m rest :
  pending d self = m :: rest →
  ∃ q, after_wait d self = (Got m, q) ∧
       pending d q = rest ∧ ready d q = false.
Proof.
  destruct d; simpl; unfold agent_message_after_wait, cs_response_after_wait;
    intros ->; eexists; split; reflexivity || (split; reflexivity).
Qed.

Lemma after_wait_frame o q :
  after_wait d self = (o, q) →
  conversation_history q = conversation_history self ∧
  active q = active self.
Proof.
  destruct d; simpl; unfold agent_message_after_wait, cs_response_after_wait;
    [destruct (agent_to_cs self) | destruct (cs_to_agent self)];
    intros [= <- <-]; split; reflexivity.
Qed.

Lemma after_wait_not_timed_out o q :
  after_wait d self = (o, q) → o ≠ TimedOut.
Proof.
  destruct d; simpl; unfold agent_message_after_wait, cs_response_after_wait;
    [destruct (agent_to_cs self) | destruct (cs_to_agent self)];
    intros [= <- <-]; discriminate.
Qed.
End after_wait_facts.

Lemma call_wait_frame d timeout c :
  conversation_history (mq (call_wait d timeout c)) = conversation_history (mq c) ∧
  active (mq (call_wait d timeout c)) = active (mq c).
Proof.
  unfold call_wait.
  destruct (truthy timeout); [destruct timeout as [t|] |]; simpl;
    try destruct (Qle_bool t 0); simpl;
    try (destruct (ready d (mq c)); simpl);
    try (destruct (after_wait d (mq c)) as [o q] eqn:Ha; simpl;
         apply after_wait_frame in Ha);
    tauto.
Qed.

(** Waits never touch the history or the flag. *)
Lemma wait_op_frame op c c' :
  is_wait_op op = true → step op c = Some c' →
  conversation_history (mq c') = conversation_history (mq c) ∧
  active (mq c') = active (mq c).
Proof.
  intros Hw H. step_inv H; try discriminate Hw; simpl.
  - apply call_wait_frame.
  - eapply after_wait_frame, Hafter.
  - tauto.
  - tauto.
Qed.

Lemma wait_ops_frame ops : ∀ c c',
  forallb is_wait_op ops = true → run ops c = Some c' →
  conversation_history (mq c') = conversation_history (mq c) ∧
  active (mq c') = active (mq c).
Proof.
  induction ops as [|op ops IH]; simpl; intros c c' Hw H.
  - injection H as <-. tauto.
  - apply andb_prop in Hw as [Hop Hops].
    destruct (step op c) as [c1|] eqn:Hstep; [|discriminate].
    destruct (wait_op_frame _ _ _ Hop Hstep) as [E1 E2].
    destruct (IH _ _ Hops H) as [E3 E4].
    split; congruence.
Qed.

Lemma run_app ops1 ops2 c :
  run (ops1 ++ ops2) c = run ops1 c ≫= run ops2.
Proof.
  revert c. induction ops1 as [|op ops1 IH]; simpl; intros c; [reflexivity|].
  destruct (step op c); simpl; [apply IH | reflexivity].
Qed.

Lemma send_step_history op c c' :
  is_send op = true → step op c = Some c' →
  ∃ m, conversation_history (mq c') = conversation_history (mq c) ++ [m].
Proof.
  intros Hs H. step_inv H; try discriminate Hs; simpl; eexists; reflexivity.
Qed.

(** ** History *)

(** C10.  [clear_history] empties the conversation history and changes
    nothing else: both pending queues, both ready events and the active flag
    are as before, for every mailbox state. *)
Theorem clear_history_only_history (self : MessageQueue) :
  conversation_history (clear_history self) = [] ∧
  agent_to_cs (clear_history self) = agent_to_cs self ∧
  cs_to_agent (clear_history self) = cs_to_agent self ∧
  agent_message_ready (clear_history self) = agent_message_ready self ∧
  cs_response_ready (clear_history self) = cs_response_ready self ∧
  active (clear_history self) = active self.
Proof. unfold clear_history; simpl. repeat split. Qed.

(** C2.  Sending a from the agent, b from CS and c from the agent, in that
    call order, on a fresh mailbox gives a history of exactly these three
    messages in that order, with senders agent, CS, agent, whatever calls,
    resumptions and timeouts of waits are interleaved with the sends. *)
Theorem history_complete_in_call_order
    (a b c na nb nc : string) (w0 w1 w2 w3 : list Op) (cf : Config) :
  forallb is_wait_op w0 = true → forallb is_wait_op w1 = true →
  forallb is_wait_op w2 = true → forallb is_wait_op w3 = true →
  run (w0 ++ SendFromAgent na a :: w1 ++ SendFromCs nb b :: w2 ++
       SendFromAgent nc c :: w3) init = Some cf →
  get_conversation_history (mq cf) =
    [ {| text := a; timestamp := na; sender := negotiation_agent |};
      {| text := b; timestamp := nb; sender := cs_simulator |};
      {| text := c; timestamp := nc; sender := negotiation_agent |} ].
Proof.
  intros H0 H1 H2 H3 H. unfold get_conversation_history.
  rewrite run_app in H.
  destruct (run w0 init) as [c0|] eqn:R0; [|discriminate H].
  apply (wait_ops_frame _ _ _ H0) in R0 as [E0 _].
  cbn [mbind option_bind run step] in H. rewrite run_app in H.
  destruct (run w1 _) as [c1|] eqn:R1; [|discriminate H].
  apply (wait_ops_frame _ _ _ H1) in R1 as [E1 _].
  cbn [mbind option_bind run step] in H. rewrite run_app in H.
  destruct (run w2 _) as [c2|] eqn:R2; [|discriminate H].
  apply (wait_ops_frame _ _ _ H2) in R2 as [E2 _].
  cbn [mbind option_bind run step] in H.
  apply (wait_ops_frame _ _ _ H3) in H as [E3 _].
  rewrite E3. simpl. rewrite E2. simpl. rewrite E1. simpl. rewrite E0.
  reflexivity.
Qed.

Lemma history_complete_in_call_order_witness :
  ∃ cf,
    run ([CallWait AgentToCs None] ++ SendFromAgent "t1" "a" ::
         [Resume 0; CallWait CsToAgent (Some 5%Q)] ++ SendFromCs "t2" "b" ::
         [] ++ SendFromAgent "t3" "c" :: [Timeout 1]) init = Some cf ∧
    get_conversation_history (mq cf) =
      [ {| text := "a"; timestamp := "t1"; sender := negotiation_agent |};
        {| text := "b"; timestamp := "t2"; sender := cs_simulator |};
        {| text := "c"; timestamp := "t3"; sender := negotiation_agent |} ].
Proof.
  eexists. split; [reflexivity|].
  apply (history_complete_in_call_order "a" "b" "c" "t1" "t2" "t3"
           [CallWait AgentToCs None] [Resume 0; CallWait CsToAgent (Some 5%Q)]
           [] [Timeout 1]); reflexivity.
Defined.

(** C5 as stated fails: after one send and a [clear_history] the history is
    empty although one send has been made. *)
Lemma history_length_counterexample :
  let ops := [SendFromAgent "2025-01-01T10:00:00" "hello"; ClearHistory] in
  ∃ cf, run ops init = Some cf ∧
        total_sends ops = 1 ∧
        length (get_conversation_history (mq cf)) = 0 ∧
        length (get_conversation_history (mq cf)) ≠ total_sends ops.
Proof.
  eexists. split; [reflexivity|]. repeat split. discriminate.
Qed.

Lemma step_history_length op c c' :
  step op c = Some c' →
  length (conversation_history (mq c')) =
    match op with
    | ClearHistory => 0
    | _ => if is_send op then S (length (conversation_history (mq c)))
           else length (conversation_history (mq c))
    end.
Proof.
  intros H.
  destruct op; simpl;
    try (apply send_step_history in H as [m ->]; [|reflexivity];
         rewrite length_app; simpl; lia);
    try (apply wait_op_frame in H as [-> _]; reflexivity);
    injection H as <-; reflexivity.
Qed.

Lemma step_history_prefix op c c' :
  step op c = Some c' → is_clear op = false →
  conversation_history (mq c) `prefix_of` conversation_history (mq c').
Proof.
  intros H Hc.
  destruct op; try discriminate Hc;
    try (apply send_step_history in H as [m ->]; [|reflexivity];
         apply prefix_app_r; reflexivity);
    try (apply wait_op_frame in H as [-> _]; reflexivity);
    injection H as <-; reflexivity.
Qed.

(** C5, amended.  After any sequence of mailbox operations the length of the
    history equals the number of sends made since the most recent
    [clear_history] (since the start when there was none); and over a sequence
    without [clear_history] the old history stays as a prefix and grows by
    exactly one entry per send, also when waits dequeue the messages. *)
Theorem history_length_since_clear (ops : list Op) (c cf : Config) :
  run ops c = Some cf →
  length (get_conversation_history (mq cf)) =
    sends_since_clear ops (length (get_conversation_history (mq c))) ∧
  (forallb (λ op, negb (is_clear op)) ops = true →
   get_conversation_history (mq c) `prefix_of` get_conversation_history (mq cf) ∧
   length (get_conversation_history (mq cf)) =
     length (get_conversation_history (mq c)) + total_sends ops).
Proof.
  unfold get_conversation_history, total_sends.
  revert c. induction ops as [|op ops IH]; simpl; intros c H.
  - injection H as <-. split; [reflexivity|]. intros _. split; [reflexivity|lia].
  - destruct (step op c) as [c1|] eqn:Hstep; [|discriminate H].
    destruct (IH _ H) as [IHlen IHpre]. split.
    + rewrite IHlen. f_equal. rewrite (step_history_length _ _ _ Hstep).
      destruct op; reflexivity.
    + intros Hnc. apply andb_prop in Hnc as [Hop Hops].
      apply negb_true_iff in Hop.
      destruct (IHpre Hops) as [P L]. split.
      * etrans; [eapply step_history_prefix; eassumption | exact P].
      * rewrite L, (step_history_length _ _ _ Hstep).
        rewrite filter_cons.
        destruct op; try discriminate Hop; simpl; lia.
Qed.

Lemma history_length_since_clear_witness :
  let ops := [SendFromAgent "t1" "a"; CallWait AgentToCs None;
              SendFromCs "t2" "b"; EndConversation] in
  ∃ cf, run ops init = Some cf ∧
        length (get_conversation_history (mq cf)) = 2 ∧
        get_conversation_history (mq init) `prefix_of` get_conversation_history (mq cf).
Proof.
  intros ops. eexists. split; [reflexivity|].
  destruct (history_length_since_clear ops init _ eq_refl) as [L P].
  split; [exact L | exact (proj1 (P eq_refl))].
Defined.

(** ** The active flag *)

(** C6.  On a fresh mailbox [send_from_agent] makes the flag true, but
    [send_from_cs] leaves it false: a first send from the CS side does not
    activate the conversation. *)
Theorem send_from_cs_leaves_flag (now message : string) :
  is_active (send_from_agent now message MessageQueue_init) = true ∧
  is_active (send_from_cs now message MessageQueue_init) = false.
Proof. split; reflexivity. Qed.

(** The flag is reset by [end_conversation] only. *)
Lemma active_reset_only_by_end op c c' :
  step op c = Some c' →
  is_active (mq c) = true → is_active (mq c') = false →
  op = EndConversation.
Proof.
  unfold is_active. intros H Ha Hb.
  destruct op; try reflexivity; exfalso.
  - injection H as <-. discriminate Hb.
  - injection H as <-. simpl in Hb. congruence.
  - apply wait_op_frame in H as [_ E]; [congruence | reflexivity].
  - apply wait_op_frame in H as [_ E]; [congruence | reflexivity].
  - apply wait_op_frame in H as [_ E]; [congruence | reflexivity].
  - injection H as <-. simpl in Hb. congruence.
Qed.

Lemma end_conversation_resets self : is_active (end_conversation self) = false.
Proof. reflexivity. Qed.

(** ** Tasks *)

Lemma call_wait_tasks d timeout c :
  ∃ t, tasks (call_wait d timeout c) = tasks c ++ [t] ∧
       waits_on t = d ∧
       timer t = (if truthy timeout then timeout else None).
Proof.
  unfold call_wait.
  destruct (truthy timeout); [destruct timeout as [t|] |]; simpl;
    try destruct (Qle_bool t 0); simpl;
    try (destruct (ready d (mq c)); simpl);
    try (destruct (after_wait d (mq c)) as [o q]; simpl);
    eexists; (split; [reflexivity|]); split; reflexivity.
Qed.

Lemma wake_task_step d now message i t :
  task_step (send_op d now message) i t (wake d t).
Proof.
  unfold wake.
  destruct d, (waits_on t) eqn:Hd, (status t) eqn:Hs; try constructor.
  - rewrite <- Hd. eapply ts_wake; [rewrite Hd; reflexivity | assumption].
  - rewrite <- Hd. eapply ts_wake; [rewrite Hd; reflexivity | assumption].
Qed.

(** Every task keeps its position, and changes only as [task_step] says. *)
Lemma step_task op c c' j tj :
  step op c = Some c' → tasks c !! j = Some tj →
  ∃ t', tasks c' !! j = Some t' ∧ task_step op j tj t'.
Proof.
  intros H Ht. step_inv H; simpl.
  - unfold event_set. destruct (agent_message_ready (mq c)).
    + eexists; split; [eassumption | constructor].
    + rewrite list_lookup_fmap, Ht. eexists; split; [reflexivity|].
      apply (wake_task_step AgentToCs).
  - unfold event_set. destruct (cs_response_ready (mq c)).
    + eexists; split; [eassumption | constructor].
    + rewrite list_lookup_fmap, Ht. eexists; split; [reflexivity|].
      apply (wake_task_step CsToAgent).
  - destruct (call_wait_tasks d timeout c) as (tn & -> & _).
    rewrite lookup_app_l by (eapply lookup_lt_Some; eassumption).
    eexists; split; [eassumption | constructor].
  - destruct (decide (i = j)) as [->|Hne].
    + rewrite list_lookup_insert_eq by (eapply lookup_lt_Some; eassumption).
      eexists; split; [reflexivity|].
      assert (t = tj) as -> by congruence.
      eapply ts_resume; [reflexivity | assumption |].
      eapply after_wait_not_timed_out; eassumption.
    + rewrite list_lookup_insert_ne by assumption.
      eexists; split; [eassumption | constructor].
  - destruct (decide (i = j)) as [->|Hne].
    + rewrite list_lookup_insert_eq by (eapply lookup_lt_Some; eassumption).
      eexists; split; [reflexivity|].
      assert (t = tj) as -> by congruence.
      eapply ts_timeout; [reflexivity | left; assumption | eassumption].
    + rewrite list_lookup_insert_ne by assumption.
      eexists; split; [eassumption | constructor].
  - destruct (decide (i = j)) as [->|Hne].
    + rewrite list_lookup_insert_eq by (eapply lookup_lt_Some; eassumption).
      eexists; split; [reflexivity|].
      assert (t = tj) as -> by congruence.
      eapply ts_timeout; [reflexivity | right; assumption | eassumption].
    + rewrite list_lookup_insert_ne by assumption.
      eexists; split; [eassumption | constructor].
  - eexists; split; [eassumption | constructor].
  - eexists; split; [eassumption | constructor].
Qed.

(** A property of one task that every permitted action preserves holds along
    every run of permitted actions. *)
Lemma run_task_invariant (P : Task → Prop) (allowed : Op → bool) :
  (∀ op i t t', allowed op = true → task_step op i t t' → P t → P t') →
  ∀ ops c cf i t,
    forallb allowed ops = true → run ops c = Some cf →
    tasks c !! i = Some t → P t →
    ∃ t', tasks cf !! i = Some t' ∧ P t'.
Proof.
  intros Hpres. induction ops as [|op ops IH]; simpl; intros c cf i t Hall H Ht HP.
  - injection H as <-. eauto.
  - apply andb_prop in Hall as [Hop Hops].
    destruct (step op c) as [c1|] eqn:Hstep; [|discriminate H].
    destruct (step_task _ _ _ _ _ Hstep Ht) as (t1 & Ht1 & Hts).
    eapply IH; eauto.
Qed.

(** A task without a timer never takes the [except] clause. *)
Lemma untimed_never_times_out ops c cf i t :
  run ops c = Some cf → tasks c !! i = Some t →
  timer t = None → status t ≠ Done TimedOut →
  ∃ t', tasks cf !! i = Some t' ∧ waits_on t' = waits_on t ∧
        status t' ≠ Done TimedOut.
Proof.
  intros H Ht Htimer Hst.
  assert (forallb (λ _ : Op, true) ops = true) as Hall
    by (clear; induction ops; simpl; auto).
  pose proof (run_task_invariant
                (λ t', waits_on t' = waits_on t ∧ timer t' = None ∧
                       status t' ≠ Done TimedOut)
                (λ _, true)) as Inv.
  destruct (Inv) with (ops := ops) (c := c) (cf := cf) (i := i) (t := t)
    as (t' & Ht' & Hw & _ & Hs); try assumption.
  - clear. intros op i t0 t' _ Hts (Hw & Htimer & Hst).
    destruct Hts as [|now message _ _|o _ _ Ho|deadline _ _ Hd]; simpl.
    + auto.
    + split; [assumption|]. split; [assumption|]. intros [=].
    + split; [assumption|]. split; [assumption|]. intros [= ->]. auto.
    + congruence.
  - auto.
  - eauto.
Qed.

(** A task parked without a timer stays parked as long as nothing is sent
    in its direction. *)
Lemma parked_untimed_stays ops c cf i t :
  forallb (λ op, negb (is_send_on (waits_on t) op)) ops = true →
  run ops c = Some cf → tasks c !! i = Some t →
  timer t = None → status t = Parked →
  tasks cf !! i = Some t.
Proof.
  intros Hall H Ht Htimer Hst.
  destruct (run_task_invariant (λ t', t' = t)
              (λ op, negb (is_send_on (waits_on t) op)))
    with (ops := ops) (c := c) (cf := cf) (i := i) (t := t)
    as (t' & Ht' & ->); auto.
  clear -Htimer Hst. intros op i t0 t' Hop Hts ->.
  destruct Hts as [|now message -> _| |]; try congruence.
  destruct (waits_on t); discriminate Hop.
Qed.

(** ** Timeouts *)

Lemma truthy_zero t : (t == 0)%Q → truthy (Some t) = false.
Proof.
  intros H. unfold truthy. apply Qeq_bool_iff in H. rewrite H. reflexivity.
Qed.

(** C8.  A wait called with a timeout equal to 0 is the same call as a wait
    with no timeout: no timer is armed, the caller can never observe
    [TimeoutError], and when the event is not set the task stays parked until
    something is sent in its direction. *)
Theorem zero_timeout_is_no_timeout (d : Direction) (t : Q) (c : Config) :
  (t == 0)%Q →
  call_wait d (Some t) c = call_wait d None c ∧
  (∀ ops cf e,
      run ops (call_wait d (Some t) c) = Some cf →
      observed (length (tasks c)) cf ≠ Some (Raise e)) ∧
  (ready d (mq c) = false →
   ∀ ops cf,
     forallb (λ op, negb (is_send_on d op)) ops = true →
     run ops (call_wait d (Some t) c) = Some cf →
     status_of (length (tasks c)) cf = Some Parked).
Proof.
  intros Hz. pose proof (truthy_zero _ Hz) as Hf.
  assert (call_wait d (Some t) c = call_wait d None c) as E.
  { unfold call_wait. rewrite Hf. reflexivity. }
  split; [exact E|]. rewrite E. clear E Hf Hz.
  split.
  - intros ops cf e H.
    destruct (untimed_never_times_out ops (call_wait d None c) cf (length (tasks c))
                {| waits_on := d; timer := None;
                   status := if ready d (mq c)
                             then Done (fst (after_wait d (mq c))) else Parked |})
      as (t' & Ht' & Hw & Hs); auto.
    + unfold call_wait; simpl. destruct (ready d (mq c));
        [destruct (after_wait d (mq c)) as [o q]|]; simpl;
        rewrite lookup_app_r, Nat.sub_diag by lia; reflexivity.
    + simpl. destruct (ready d (mq c)); [|discriminate].
      destruct (after_wait d (mq c)) as [o q] eqn:Ha; simpl.
      apply after_wait_not_timed_out in Ha. congruence.
    + unfold observed. rewrite Ht'.
      destruct (status t') as [| |[m| |]]; try discriminate. congruence.
  - intros Hr ops cf Hall H.
    unfold status_of.
    rewrite (parked_untimed_stays ops (call_wait d None c) cf (length (tasks c))
               {| waits_on := d; timer := None; status := Parked |});
      auto.
    unfold call_wait; simpl. rewrite Hr; simpl.
    rewrite lookup_app_r, Nat.sub_diag by lia; reflexivity.
Qed.

Lemma zero_timeout_is_no_timeout_witness :
  call_wait CsToAgent (Some 0%Q) init = call_wait CsToAgent None init ∧
  status_of 0 (call_wait CsToAgent (Some 0%Q) init) = Some Parked ∧
  step (Timeout 0) (call_wait CsToAgent (Some 0%Q) init) = None.
Proof.
  destruct (zero_timeout_is_no_timeout CsToAgent 0%Q init) as (E & _ & P).
  - reflexivity.
  - split; [exact E|]. split; [|reflexivity].
    apply (P eq_refl [] _ eq_refl eq_refl).
Defined.

(** ** Dequeuing *)

Lemma after_wait_got dir self msg self' :
  after_wait dir self = (Got msg, self') →
  pending dir self = msg :: pending dir self' ∧ ready dir self' = false.
Proof.
  destruct dir; simpl; unfold agent_message_after_wait, cs_response_after_wait;
    [destruct (agent_to_cs self) | destruct (cs_to_agent self)];
    intros [= <- <-]; split; reflexivity.
Qed.

Lemma lookup_new_task (ts : list Task) (t : Task) :
  (ts ++ [t]) !! length ts = Some t.
Proof. rewrite lookup_app_r, Nat.sub_diag by lia. reflexivity. Qed.

(** Whenever an action hands a message to its caller, the action was the
    pop-and-clear branch of the wait. *)
Lemma delivered_pop op c c' dir msg :
  step op c = Some c' → delivered op c c' = Some (dir, msg) →
  after_wait dir (mq c) = (Got msg, mq c').
Proof.
  intros H. unfold delivered. step_inv H; simpl; try discriminate.
  - unfold call_wait.
    destruct (truthy timeout); [destruct timeout as [t|] |]; simpl;
      try destruct (Qle_bool t 0); simpl;
      try (destruct (ready d (mq c)); simpl);
      try (destruct (after_wait d (mq c)) as [o q] eqn:Ha; simpl);
      rewrite lookup_new_task; simpl; try discriminate;
      destruct o; try discriminate; intros [= <- <-]; assumption.
  - rewrite list_lookup_insert_eq by (eapply lookup_lt_Some; eassumption).
    simpl. destruct o; try discriminate. intros [= <- <-]. assumption.
  - rewrite list_lookup_insert_eq by (eapply lookup_lt_Some; eassumption).
    simpl. discriminate.
  - rewrite list_lookup_insert_eq by (eapply lookup_lt_Some; eassumption).
    simpl. discriminate.
Qed.




(** ** Timed-out waits *)

Lemma done_is_final ops c cf i t o :
  run ops c = Some cf → tasks c !! i = Some t → status t = Done o →
  tasks cf !! i = Some t.
Proof.
  intros H Ht Hs.
  assert (forallb (λ _ : Op, true) ops = true) as Hall
    by (clear; induction ops; simpl; auto).
  pose proof (run_task_invariant (λ t', t' = t) (λ _, true)) as Inv.
  destruct Inv with (ops := ops) (c := c) (cf := cf) (i := i) (t := t)
    as (t' & Ht' & ->); try assumption; try reflexivity.
  clear -Hs. intros op i t0 t' _ Hts ->.
  destruct Hts as [| | |deadline _ [Hp|Hp] _]; congruence.
Qed.

Lemma task_identity_kept ops c cf i t :
  run ops c = Some cf → tasks c !! i = Some t →
  ∃ t', tasks cf !! i = Some t' ∧
        waits_on t' = waits_on t ∧ timer t' = timer t.
Proof.
  intros H Ht.
  assert (forallb (λ _ : Op, true) ops = true) as Hall
    by (clear; induction ops; simpl; auto).
  pose proof (run_task_invariant
                (λ t', waits_on t' = waits_on t ∧ timer t' = timer t)
                (λ _, true)) as Inv.
  destruct Inv with (ops := ops) (c := c) (cf := cf) (i := i) (t := t)
    as (t' & Ht' & Hw); try assumption; [|tauto|eauto].
  clear. intros op i t0 t' _ Hts Hw. destruct Hts; simpl; assumption.
Qed.

Lemma positive_is_armed t :
  (0 < t)%Q → truthy (Some t) = true ∧ Qle_bool t 0 = false.
Proof.
  intros Hpos. split.
  - unfold truthy. apply negb_true_iff.
    destruct (Qeq_bool t 0) eqn:E; [|reflexivity].
    apply Qeq_bool_iff in E. rewrite E in Hpos.
    exfalso. exact (Qlt_irrefl _ Hpos).
  - destruct (Qle_bool t 0) eqn:E; [|reflexivity].
    apply Qle_bool_iff in E.
    exfalso. exact (Qlt_not_le _ _ Hpos E).
Qed.

(** The call of a wait with a positive timeout: it either finishes at once
    through the body, or parks with its timer armed and the mailbox as it
    was. *)
Lemma call_wait_positive dir t c :
  (0 < t)%Q →
  call_wait dir (Some t) c =
    if ready dir (mq c)
    then {| mq := snd (after_wait dir (mq c));
            tasks := tasks c ++
                     [{| waits_on := dir; timer := Some t;
                         status := Done (fst (after_wait dir (mq c))) |}] |}
    else {| mq := mq c;
            tasks := tasks c ++
                     [{| waits_on := dir; timer := Some t; status := Parked |}] |}.
Proof.
  intros Hpos. destruct (positive_is_armed t Hpos) as [Ht Hle].
  unfold call_wait. rewrite Ht, Hle.
  destruct (ready dir (mq c)); [|reflexivity].
  destruct (after_wait dir (mq c)); reflexivity.
Qed.

Lemma send_op_mailbox dir now message c :
  ∃ c', step (send_op dir now message) c = Some c' ∧
        length (tasks c') = length (tasks c) ∧
        ready dir (mq c') = true ∧
        pending dir (mq c') = pending dir (mq c) ++ [message_data dir now message].
Proof.
  destruct dir; simpl; eexists; (split; [reflexivity|]); simpl;
    unfold event_set;
    [destruct (agent_message_ready (mq c)) | destruct (cs_response_ready (mq c))];
    rewrite ?length_fmap; repeat split.
Qed.

(** A wait without timeout called while the event is set and a message is
    pending returns the oldest pending message at once. *)
Lemma call_wait_ready dir c m rest :
  ready dir (mq c) = true → pending dir (mq c) = m :: rest →
  ∃ c', step (CallWait dir None) c = Some c' ∧
        delivered (CallWait dir None) c c' = Some (dir, m) ∧
        observed (length (tasks c)) c' = Some (Return (text m)).
Proof.
  intros Hr Hp. eexists. split; [reflexivity|].
  destruct (after_wait_cons dir (mq c) m rest Hp) as (q & Ha & _).
  unfold delivered, observed, call_wait; simpl. rewrite Hr, Ha; simpl.
  rewrite lookup_new_task; simpl. split; reflexivity.
Qed.

(** C3 as stated fails in its last part: with an older message still
    pending (event cleared by the wait that took A), a wait times out, and
    the wait that follows the next send returns the older message B, not the
    message D that was sent. *)
Lemma timed_out_wait_then_send_counterexample :
  let ops := [SendFromAgent "t1" "A"; SendFromAgent "t2" "B";
              CallWait AgentToCs None;
              CallWait AgentToCs (Some 1%Q); Timeout 1;
              SendFromAgent "t3" "D";
              CallWait AgentToCs None] in
  ∃ cf, run ops init = Some cf ∧
        observed 0 cf = Some (Return "A") ∧
        observed 1 cf =
          Some (Raise (TimeoutError "Timeout waiting for agent message")) ∧
        observed 2 cf = Some (Return "B") ∧
        observed 2 cf ≠ Some (Return "D").
Proof.
  eexists. split; [reflexivity|]. repeat split. discriminate.
Qed.

(** C3, amended.  When a wait with a positive timeout times out, whatever
    happened between its call and the timeout: the caller gets the
    [TimeoutError], the call and the timeout each leave the whole mailbox
    (queues, events, history, flag) as they found it, no other task is
    touched, and a send followed by a second wait with no timeout returns the
    oldest pending message of that direction, which is the message just sent
    when nothing was pending in that direction. *)
Theorem positive_timeout_non_destructive
    (c c1 c2 : Config) (dir : Direction) (t : Q) (mid : list Op) :
  (0 < t)%Q →
  run mid (call_wait dir (Some t) c) = Some c1 →
  step (Timeout (length (tasks c))) c1 = Some c2 →
  observed (length (tasks c)) c2 =
    Some (Raise (TimeoutError (timeout_message dir))) ∧
  mq (call_wait dir (Some t) c) = mq c ∧
  mq c2 = mq c1 ∧
  (∀ j, j ≠ length (tasks c) → tasks c2 !! j = tasks c1 !! j) ∧
  (∀ now message, ∃ c3 c4 m,
      step (send_op dir now message) c2 = Some c3 ∧
      step (CallWait dir None) c3 = Some c4 ∧
      head (pending dir (mq c1) ++ [message_data dir now message]) = Some m ∧
      delivered (CallWait dir None) c3 c4 = Some (dir, m) ∧
      observed (length (tasks c2)) c4 = Some (Return (text m)) ∧
      (pending dir (mq c1) = [] →
       observed (length (tasks c2)) c4 = Some (Return message))).
Proof.
  intros Hpos Hmid Hto.
  pose proof (call_wait_positive dir t c Hpos) as Hcall.
  set (i := length (tasks c)) in *.
  (* the task as the timeout finds it *)
  simpl in Hto.
  destruct (tasks c1 !! i) as [t1|] eqn:Ht1; [|discriminate Hto].
  (* the task as the call left it *)
  assert (∃ t0, tasks (call_wait dir (Some t) c) !! i = Some t0 ∧
                waits_on t0 = dir ∧
                (status t0 = Parked ∧ mq (call_wait dir (Some t) c) = mq c ∨
                 ∃ o, status t0 = Done o)) as (t0 & Ht0 & Hdir & Hst).
  { rewrite Hcall. destruct (ready dir (mq c)); simpl;
      (eexists; split; [apply lookup_new_task|]); simpl; split; eauto. }
  assert (waits_on t1 = dir) as Hdir1.
  { destruct (task_identity_kept _ _ _ _ _ Hmid Ht0) as (t' & Ht' & Hw & _).
    congruence. }
  assert (mq (call_wait dir (Some t) c) = mq c) as Hmq.
  { destruct Hst as [[_ E]|[o Ho]]; [exact E|].
    pose proof (done_is_final _ _ _ _ _ _ Hmid Ht0 Ho) as Hfin.
    assert (t1 = t0) as -> by congruence.
    rewrite Ho in Hto. discriminate Hto. }
  assert (c2 = {| mq := mq c1; tasks := <[i := finish t1 TimedOut]> (tasks c1) |})
    as ->.
  { destruct (status t1); try discriminate Hto;
      destruct (timer t1); try discriminate Hto; congruence. }
  clear Hto. simpl.
  split.
  { unfold observed; simpl.
    rewrite list_lookup_insert_eq by (eapply lookup_lt_Some; eassumption).
    simpl. rewrite Hdir1. reflexivity. }
  split; [exact Hmq|]. split; [reflexivity|].
  split.
  { intros j Hj. apply list_lookup_insert_ne. congruence. }
  intros now message.
  destruct (send_op_mailbox dir now message
              {| mq := mq c1; tasks := <[i := finish t1 TimedOut]> (tasks c1) |})
    as (c3 & Hsend & Hlen & Hready & Hpend).
  simpl in Hlen, Hpend.
  assert (∃ m rest, pending dir (mq c3) = m :: rest ∧
                    head (pending dir (mq c1) ++ [message_data dir now message]) = Some m ∧
                    (pending dir (mq c1) = [] → text m = message))
    as (m & rest & Hp3 & Hhead & Hnew).
  { rewrite Hpend. destruct (pending dir (mq c1)) as [|m0 rest0]; simpl.
    - eexists _, _. repeat split.
    - eexists _, _. split; [reflexivity|]. split; [reflexivity|].
      discriminate. }
  destruct (call_wait_ready dir c3 m rest Hready Hp3) as (c4 & Hwait & Hdel & Hobs).
  exists c3, c4, m. rewrite <- Hlen.
  repeat split; try assumption.
  intros Hnil. rewrite Hobs, (Hnew Hnil). reflexivity.
Qed.

Lemma positive_timeout_non_destructive_witness :
  let c := {| mq := send_from_agent "t0" "Hello" MessageQueue_init; tasks := [] |} in
  let c1 := call_wait CsToAgent (Some (1 # 20)%Q) c in
  ∃ c2 c3 c4,
    step (Timeout 0) c1 = Some c2 ∧
    observed 0 c2 = Some (Raise (TimeoutError "Timeout waiting for CS response")) ∧
    mq c2 = mq c ∧
    step (SendFromCs "t1" "reply") c2 = Some c3 ∧
    step (CallWait CsToAgent None) c3 = Some c4 ∧
    observed 1 c4 = Some (Return "reply").
Proof.
  intros c c1.
  pose (c2 := {| mq := mq c;
                 tasks := [{| waits_on := CsToAgent; timer := Some (1 # 20)%Q;
                              status := Done TimedOut |}] |}).
  destruct (positive_timeout_non_destructive c c1 c2 CsToAgent (1 # 20)%Q [])
    as (Hobs & _ & Hmq & _ & Hnext); [reflexivity..|].
  destruct (Hnext "t1" "reply") as (c3 & c4 & m & Hs & Hw & _ & _ & _ & Hret).
  exists c2, c3, c4.
  split; [reflexivity|]. split; [exact Hobs|]. split; [exact Hmq|].
  split; [exact Hs|]. split; [exact Hw|]. exact (Hret eq_refl).
Defined.

(** ** Waking with nothing to take *)





(** ** Conservation of messages *)

(** The outcome of the body of a wait on [d0], seen from direction [dir]. *)
Lemma after_wait_conserve dir d0 self o self' :
  after_wait d0 self = (o, self') →
  match o with
  | Got m => if decide (d0 = dir) then [m] else []
  | _ => []
  end ++ pending dir self' = pending dir self.
Proof.
  destruct d0; simpl; unfold agent_message_after_wait, cs_response_after_wait;
    [destruct (agent_to_cs self) eqn:E | destruct (cs_to_agent self) eqn:E];
    intros [= <- <-]; destruct dir; simpl; congruence.
Qed.

Lemma got_wake dir d t : got dir (wake d t) = got dir t.
Proof.
  unfold wake. destruct d, (waits_on t) eqn:Hw, (status t) eqn:Hs;
    try reflexivity; unfold got; simpl; rewrite Hs; reflexivity.
Qed.

Lemma received_wake dir d ts : received dir (wake d <$> ts) = received dir ts.
Proof.
  unfold received. induction ts as [|t ts IH]; csimpl; [reflexivity|].
  rewrite got_wake, IH. reflexivity.
Qed.

Lemma received_event_set dir b d ts :
  received dir (event_set b d ts) = received dir ts.
Proof. unfold event_set. destruct b; [reflexivity | apply received_wake]. Qed.

Lemma received_app dir ts t :
  received dir (ts ++ [t]) = received dir ts ++ option_list (got dir t).
Proof.
  unfold received. rewrite omap_app. simpl. destruct (got dir t); reflexivity.
Qed.

(** Replacing a task that had received nothing. *)
Lemma received_insert dir ts i t t' :
  ts !! i = Some t → got dir t = None →
  received dir (<[i := t']> ts) ≡ₚ option_list (got dir t') ++ received dir ts.
Proof.
  unfold received. revert i. induction ts as [|t0 ts IH]; intros [|i] Hl Hg;
    try discriminate Hl; simpl in *.
  - injection Hl as ->. rewrite Hg. destruct (got dir t'); reflexivity.
  - pose proof (IH _ Hl Hg) as P. destruct (got dir t0) as [y|].
    + etrans; [apply perm_skip; exact P | apply Permutation_middle].
    + exact P.
Qed.

Lemma got_finish dir t o :
  got dir (finish t o) =
    match o with
    | Got m => if decide (waits_on t = dir) then Some m else None
    | _ => None
    end.
Proof. reflexivity. Qed.

(** One action: what the tasks have received plus what is pending grows by
    exactly what the action sends. *)
Lemma step_conserves dir op c c' :
  step op c = Some c' →
  received dir (tasks c') ++ pending dir (mq c') ≡ₚ
  received dir (tasks c) ++ pending dir (mq c) ++ option_list (sent_by dir op).
Proof.
  intros H. step_inv H; simpl.
  - rewrite received_event_set. destruct dir; simpl; rewrite ?app_nil_r; reflexivity.
  - rewrite received_event_set. destruct dir; simpl; rewrite ?app_nil_r; reflexivity.
  - rewrite app_nil_r. unfold call_wait.
    destruct (truthy timeout); [destruct timeout as [t|] |]; simpl;
      try destruct (Qle_bool t 0); simpl;
      try (destruct (ready d (mq c)); simpl);
      try (destruct (after_wait d (mq c)) as [o q] eqn:Ha; simpl;
           apply (after_wait_conserve dir) in Ha; rewrite <- Ha);
      rewrite received_app; unfold got; simpl;
      try (rewrite app_nil_r; reflexivity);
      destruct o; simpl; rewrite ?app_nil_r; try reflexivity;
      destruct (decide (d = dir)); simpl; rewrite <- ?app_assoc, ?app_nil_r;
      reflexivity.
  - rewrite app_nil_r.
    rewrite (received_insert dir (tasks c) i t (finish t o) Hlook)
      by (unfold got; rewrite Hstatus; reflexivity).
    rewrite got_finish.
    apply (after_wait_conserve dir) in Hafter. rewrite <- Hafter.
    destruct o; simpl; try reflexivity.
    destruct (decide (waits_on t = dir)); simpl; [|reflexivity].
    rewrite Permutation_middle. reflexivity.
  - rewrite app_nil_r.
    rewrite (received_insert dir (tasks c) i t (finish t TimedOut) Hlook)
      by (unfold got; rewrite Hstatus; reflexivity).
    reflexivity.
  - rewrite app_nil_r.
    rewrite (received_insert dir (tasks c) i t (finish t TimedOut) Hlook)
      by (unfold got; rewrite Hstatus; reflexivity).
    reflexivity.
  - rewrite app_nil_r. reflexivity.
  - rewrite app_nil_r. reflexivity.
Qed.

(** No loss and no duplication: along every run, the messages received by
    waiters together with those still pending are the messages that were
    there at the start together with those sent. *)
Lemma messages_conserved dir ops : ∀ c cf,
  run ops c = Some cf →
  received dir (tasks cf) ++ pending dir (mq cf) ≡ₚ
  received dir (tasks c) ++ pending dir (mq c) ++ sent dir ops.
Proof.
  induction ops as [|op ops IH]; simpl; intros c cf H.
  - injection H as <-. rewrite app_nil_r. reflexivity.
  - destruct (step op c) as [c1|] eqn:Hstep; [|discriminate H].
    rewrite (IH _ _ H), app_assoc, (step_conserves dir _ _ _ Hstep).
    unfold sent at 2. simpl. fold (sent dir ops).
    rewrite <- !app_assoc. destruct (sent_by dir op); reflexivity.
Qed.

Lemma received_cons dir t ts :
  received dir (t :: ts) = option_list (got dir t) ++ received dir ts.
Proof. unfold received; simpl. destruct (got dir t); reflexivity. Qed.

Lemma one_receiver dir ts : ∀ j tj b,
  ts !! j = Some tj → got dir tj = Some b → 1 ≤ length (received dir ts).
Proof.
  induction ts as [|t0 ts IH]; intros [|j] tj b Hl Hg;
    try discriminate Hl; rewrite received_cons, length_app; simpl in Hl.
  - injection Hl as ->. rewrite Hg. simpl. lia.
  - specialize (IH _ _ _ Hl Hg). lia.
Qed.

(** Two different tasks that both received something account for two
    received messages. *)
Lemma two_receivers dir ts : ∀ i j ti tj a b,
  i ≠ j → ts !! i = Some ti → ts !! j = Some tj →
  got dir ti = Some a → got dir tj = Some b →
  2 ≤ length (received dir ts).
Proof.
  induction ts as [|t0 ts IH]; intros [|i] [|j] ti tj a b Hne Hi Hj Ha Hb;
    try discriminate Hi; try discriminate Hj; try congruence;
    rewrite received_cons, length_app; simpl in Hi, Hj.
  - injection Hi as ->. rewrite Ha. simpl.
    pose proof (one_receiver _ _ _ _ _ Hj Hb). lia.
  - injection Hj as ->. rewrite Hb. simpl.
    pose proof (one_receiver _ _ _ _ _ Hi Ha). lia.
  - assert (i ≠ j) as Hne' by congruence.
    specialize (IH _ _ _ _ _ _ Hne' Hi Hj Ha Hb). lia.
Qed.

Lemma got_done dir t m :
  waits_on t = dir → status t = Done (Got m) → got dir t = Some m.
Proof.
  intros Hw Hs. unfold got. rewrite Hs.
  destruct (decide (waits_on t = dir)); [reflexivity | contradiction].
Qed.

Lemma received_elem dir ts i t m :
  ts !! i = Some t → got dir t = Some m → m ∈ received dir ts.
Proof.
  intros Hl Hg. apply list_elem_of_omap. exists t. split; [|exact Hg].
  eapply list_elem_of_lookup_2, Hl.
Qed.

(** ** Two waiters and one message *)

(** C7 as stated fails: two waiters are parked, one message is sent; the
    first to resume receives it, and the second does not stay blocked and
    does not time out: it completes and returns [""]. *)
Lemma two_waiters_counterexample :
  ∃ cf,
    run [CallWait AgentToCs (Some 300%Q); CallWait AgentToCs (Some 300%Q);
         SendFromAgent "t1" "ping"; Resume 0; Resume 1] init = Some cf ∧
    observed 0 cf = Some (Return "ping") ∧
    status_of 1 cf = Some (Done Empty) ∧
    observed 1 cf = Some (Return "") ∧
    status_of 1 cf ≠ Some Parked ∧
    status_of 1 cf ≠ Some Woken ∧
    status_of 1 cf ≠ Some (Done TimedOut).
Proof.
  eexists. split; [reflexivity|]. repeat split; discriminate.
Qed.

(** C7, amended.  When exactly one message is sent to CS, however the calls,
    resumptions and timeouts of the waiters of [wait_for_agent_message] are
    interleaved with the send: a waiter that receives a message receives that
    one, the queue is then empty, and every other waiter has not received it —
    it is still blocked, has timed out, or has returned the empty string; one
    that was woken by the same send and has not yet resumed will return the
    empty string. *)
Theorem one_message_at_most_one_receiver
    (ops : list Op) (cf : Config) (msg m : Message) (i : nat) (ti : Task) :
  run ops init = Some cf →
  sent AgentToCs ops = [msg] →
  tasks cf !! i = Some ti → waits_on ti = AgentToCs →
  status ti = Done (Got m) →
  m = msg ∧
  pending AgentToCs (mq cf) = [] ∧
  ∀ j tj,
    j ≠ i → tasks cf !! j = Some tj → waits_on tj = AgentToCs →
    (status tj = Parked ∨ status tj = Woken ∨
     status tj = Done Empty ∨ status tj = Done TimedOut) ∧
    (status tj = Woken →
     ∃ c', step (Resume j) cf = Some c' ∧ observed j c' = Some (Return "")).
Proof.
  intros Hrun Hsent Hi Hw Hs.
  pose proof (messages_conserved AgentToCs ops _ _ Hrun) as Hc.
  rewrite Hsent in Hc. simpl in Hc.
  apply Permutation_singleton_r in Hc.
  pose proof (got_done _ _ _ Hw Hs) as Hg.
  pose proof (received_elem _ _ _ _ _ Hi Hg) as Hin.
  destruct (received AgentToCs (tasks cf)) as [|r rs] eqn:Hrec;
    [apply elem_of_nil in Hin; contradiction|].
  simpl in Hc. injection Hc as -> Hrest.
  apply app_eq_nil in Hrest as [-> Hpend].
  apply list_elem_of_singleton in Hin as ->.
  split; [reflexivity|]. split; [exact Hpend|].
  intros j tj Hne Hj Hwj.
  assert (∀ m', status tj ≠ Done (Got m')) as Hnot.
  { intros m' Hsj. pose proof (got_done _ _ _ Hwj Hsj) as Hgj.
    assert (i ≠ j) as Hne' by congruence.
    pose proof (two_receivers AgentToCs (tasks cf) i j ti tj _ _ Hne' Hi Hj Hg Hgj) as L.
    rewrite Hrec in L. simpl in L. lia. }
  split.
  - destruct (status tj) as [| |[m'| |]]; auto. exfalso. eapply Hnot; reflexivity.
  - intros Hwoken. simpl. rewrite Hj, Hwoken, Hwj.
    rewrite (after_wait_nil AgentToCs (mq cf) Hpend).
    eexists. split; [reflexivity|]. unfold observed; simpl.
    rewrite list_lookup_insert_eq by (eapply lookup_lt_Some; eassumption).
    reflexivity.
Qed.

Lemma one_message_at_most_one_receiver_witness :
  let ops := [CallWait AgentToCs (Some 300%Q); CallWait AgentToCs None;
              SendFromAgent "t1" "ping"; Resume 0] in
  let ping := {| text := "ping"; timestamp := "t1"; sender := negotiation_agent |} in
  ∃ cf,
    run ops init = Some cf ∧
    status_of 0 cf = Some (Done (Got ping)) ∧
    status_of 1 cf = Some Woken ∧
    pending AgentToCs (mq cf) = [] ∧
    ∃ c', step (Resume 1) cf = Some c' ∧ observed 1 c' = Some (Return "").
Proof.
  intros ops ping.
  pose (t0 := {| waits_on := AgentToCs; timer := Some 300%Q;
                 status := Done (Got ping) |}).
  pose (t1 := {| waits_on := AgentToCs; timer := None; status := Woken |}).
  pose (cf := {| mq := {| agent_to_cs := []; cs_to_agent := [];
                          agent_message_ready := false; cs_response_ready := false;
                          conversation_history := [ping]; active := true |};
                 tasks := [t0; t1] |}).
  exists cf.
  destruct (one_message_at_most_one_receiver ops cf ping ping 0 t0)
    as (_ & Hp & Hothers); [reflexivity..|].
  split; [reflexivity|]. split; [reflexivity|]. split; [reflexivity|].
  split; [exact Hp|].
  destruct (Hothers 1 t1) as [_ Hres]; [discriminate | reflexivity..|].
  exact (Hres eq_refl).
Defined.

(** ** Order of delivery *)

Lemma step_handed dir op c c' :
  step op c = Some c' →
  handed dir op c c' ++ pending dir (mq c') =
  pending dir (mq c) ++ option_list (sent_by dir op).
Proof.
  intros H. unfold handed, delivered. step_inv H; simpl.
  - destruct dir; simpl; rewrite ?app_nil_r; reflexivity.
  - destruct dir; simpl; rewrite ?app_nil_r; reflexivity.
  - rewrite app_nil_r. unfold call_wait.
    destruct (truthy timeout); [destruct timeout as [t|] |]; simpl;
      try destruct (Qle_bool t 0); simpl;
      try (destruct (ready d (mq c)); simpl);
      try (destruct (after_wait d (mq c)) as [o q] eqn:Ha; simpl;
           apply (after_wait_conserve dir) in Ha; rewrite <- Ha);
      rewrite lookup_new_task; simpl; try reflexivity;
      destruct o; reflexivity.
  - rewrite app_nil_r.
    rewrite list_lookup_insert_eq by (eapply lookup_lt_Some; eassumption).
    simpl. apply (after_wait_conserve dir) in Hafter. rewrite <- Hafter.
    destruct o; reflexivity.
  - rewrite app_nil_r.
    rewrite list_lookup_insert_eq by (eapply lookup_lt_Some; eassumption).
    reflexivity.
  - rewrite app_nil_r.
    rewrite list_lookup_insert_eq by (eapply lookup_lt_Some; eassumption).
    reflexivity.
  - rewrite app_nil_r. reflexivity.
  - rewrite app_nil_r. reflexivity.
Qed.

(** What is delivered is delivered in send order: along every run, the
    messages handed to the waiters of a direction, in the order of the
    hand-overs, followed by the messages still pending, are the messages
    pending at the start followed by those sent, in call order. *)
Lemma deliveries_in_send_order dir ops : ∀ c cf,
  run ops c = Some cf →
  deliveries dir ops c ++ pending dir (mq cf) =
  pending dir (mq c) ++ sent dir ops.
Proof.
  induction ops as [|op ops IH]; simpl; intros c cf H.
  - injection H as <-. rewrite app_nil_r. reflexivity.
  - destruct (step op c) as [c1|] eqn:Hstep; [|discriminate H].
    rewrite <- app_assoc, (IH _ _ H), app_assoc, (step_handed dir _ _ _ Hstep).
    unfold sent at 2. simpl. fold (sent dir ops).
    rewrite <- app_assoc. destruct (sent_by dir op); reflexivity.
Qed.

(** C1.  Three messages A, B, C are sent to CS and three waits with no
    timeout follow.  The first wait returns A and clears the event; the
    second and third park although B and C are pending, and neither a
    resumption nor a timeout is enabled for them: they do not receive B and C
    unless something more is sent.  The same happens when the first wait was
    issued before the sends. *)
Theorem three_sends_one_delivery :
  let A := {| text := "A"; timestamp := "t1"; sender := negotiation_agent |} in
  let B := {| text := "B"; timestamp := "t2"; sender := negotiation_agent |} in
  let C := {| text := "C"; timestamp := "t3"; sender := negotiation_agent |} in
  let sends := [SendFromAgent "t1" "A"; SendFromAgent "t2" "B";
                SendFromAgent "t3" "C"] in
  (∃ cf,
     run (sends ++ [CallWait AgentToCs None; CallWait AgentToCs None;
                    CallWait AgentToCs None]) init = Some cf ∧
     observed 0 cf = Some (Return "A") ∧
     status_of 1 cf = Some Parked ∧ status_of 2 cf = Some Parked ∧
     pending AgentToCs (mq cf) = [B; C] ∧
     ready AgentToCs (mq cf) = false ∧
     step (Resume 1) cf = None ∧ step (Timeout 1) cf = None ∧
     step (Resume 2) cf = None ∧ step (Timeout 2) cf = None) ∧
  (∃ cf,
     run (CallWait AgentToCs None :: sends ++
          [Resume 0; CallWait AgentToCs None]) init = Some cf ∧
     observed 0 cf = Some (Return "A") ∧
     status_of 1 cf = Some Parked ∧
     pending AgentToCs (mq cf) = [B; C] ∧
     step (Resume 1) cf = None ∧ step (Timeout 1) cf = None).
Proof.
  split; eexists; (split; [reflexivity|]); repeat split.
Qed.


(** ** Reachable mailboxes *)


(** ** The scenarios of the specification *)

(** "Hello" is sent by the agent and no reply comes: a wait for the reply
    with a timeout of 0.05 s raises [TimeoutError], and the history still has
    exactly the one entry. *)
Example scenario_timeout_without_reply :
  let c0 := {| mq := send_from_agent "t0" "Hello" MessageQueue_init; tasks := [] |} in
  ∃ c2, step (Timeout 0) (wait_for_cs_response (Some (1 # 20)%Q) c0) = Some c2 ∧
        observed 0 c2 = Some (Raise (TimeoutError "Timeout waiting for CS response")) ∧
        text <$> get_conversation_history (mq c2) = ["Hello"].
Proof. eexists. repeat split. Qed.

(** A waiter with a budget of 5 s is parked; "ping" is sent; the waiter
    returns "ping". *)
Example scenario_wait_then_send :
  ∃ c2, run [SendFromAgent "t0" "ping"; Resume 0]
            (wait_for_agent_message (Some 5%Q) init) = Some c2 ∧
        observed 0 c2 = Some (Return "ping").
Proof. eexists. repeat split. Qed.

(** * Further properties of the mailbox *)

(** ** Order and conservation along runs from a fresh mailbox *)

Lemma sent_sender dir ops :
  Forall (λ m, sender m = sender_of dir) (sent dir ops).
Proof.
  unfold sent. induction ops as [|op ops IH]; csimpl; [constructor|].
  destruct op, dir; simpl; try exact IH; constructor; (reflexivity || exact IH).
Qed.

(** X1.  Delivery order is send order.  Along every run from a fresh mailbox,
    the messages handed to the waiters of one direction, in the order of the
    hand-overs, followed by the messages still pending in that direction, are
    exactly the messages sent in that direction, in call order: nothing is
    reordered, lost or handed over twice, and what has been delivered is a
    prefix of what has been sent. *)
Theorem delivery_follows_send_order (dir : Direction) (ops : list Op) (cf : Config) :
  run ops init = Some cf →
  deliveries dir ops init ++ pending dir (mq cf) = sent dir ops ∧
  deliveries dir ops init `prefix_of` sent dir ops.
Proof.
  intros H. pose proof (deliveries_in_send_order dir ops _ _ H) as E.
  simpl in E. replace (pending dir MessageQueue_init) with (@nil Message) in E
    by (destruct dir; reflexivity).
  simpl in E. split; [exact E|]. rewrite <- E. apply prefix_app_r. reflexivity.
Qed.

Lemma delivery_follows_send_order_witness :
  let ops := [CallWait CsToAgent (Some 30%Q); SendFromCs "t1" "one";
              SendFromCs "t2" "two"; Resume 0; SendFromCs "t3" "three";
              CallWait CsToAgent None] in
  ∃ cf, run ops init = Some cf ∧
        text <$> deliveries CsToAgent ops init = ["one"; "two"] ∧
        text <$> pending CsToAgent (mq cf) = ["three"] ∧
        deliveries CsToAgent ops init `prefix_of` sent CsToAgent ops.
Proof.
  intros ops. eexists. split; [reflexivity|].
  split; [reflexivity|]. split; [reflexivity|].
  exact (proj2 (delivery_follows_send_order CsToAgent ops _ eq_refl)).
Defined.



(** X3.  No cross-talk.  Along every run from a fresh mailbox, every message
    handed to a waiter of a direction or still pending in it was written by
    the send of that direction: [wait_for_agent_message] only ever returns
    messages with sender [negotiation_agent], [wait_for_cs_response] only
    messages with sender [cs_simulator]. *)
Theorem channel_carries_its_sender (dir : Direction) (ops : list Op) (cf : Config) :
  run ops init = Some cf →
  Forall (λ m, sender m = sender_of dir) (deliveries dir ops init) ∧
  Forall (λ m, sender m = sender_of dir) (pending dir (mq cf)).
Proof.
  intros H. pose proof (deliveries_in_send_order dir ops _ _ H) as E.
  simpl in E. replace (pending dir MessageQueue_init) with (@nil Message) in E
    by (destruct dir; reflexivity).
  simpl in E. apply Forall_app. rewrite E. apply sent_sender.
Qed.

Lemma channel_carries_its_sender_witness :
  let ops := [SendFromAgent "t1" "question"; SendFromCs "t2" "answer";
              CallWait CsToAgent None; CallWait AgentToCs None;
              SendFromCs "t3" "more"] in
  ∃ cf, run ops init = Some cf ∧
        Forall (λ m, sender m = cs_simulator) (deliveries CsToAgent ops init) ∧
        Forall (λ m, sender m = cs_simulator) (pending CsToAgent (mq cf)).
Proof.
  intros ops. eexists. split; [reflexivity|].
  exact (channel_carries_its_sender CsToAgent ops _ eq_refl).
Defined.

(** ** The history and the channels *)

Lemma step_logged op c c' :
  step op c = Some c' → is_clear op = false →
  conversation_history (mq c') = conversation_history (mq c) ++ option_list (logged_by op).
Proof.
  intros H Hc. destruct op; try discriminate Hc; simpl;
    try (injection H as <-; simpl; rewrite ?app_nil_r; reflexivity);
    apply wait_op_frame in H as [-> _]; rewrite ?app_nil_r; reflexivity.
Qed.

Lemma run_logged ops : ∀ c cf,
  run ops c = Some cf → forallb (λ op, negb (is_clear op)) ops = true →
  conversation_history (mq cf) = conversation_history (mq c) ++ omap logged_by ops.
Proof.
  induction ops as [|op ops IH]; simpl; intros c cf H Hall.
  - injection H as <-. rewrite app_nil_r. reflexivity.
  - destruct (step op c) as [c1|] eqn:Hstep; [|discriminate H].
    apply andb_prop in Hall as [Hop Hops]. apply negb_true_iff in Hop.
    rewrite (IH _ _ H Hops), (step_logged _ _ _ Hstep Hop), <- app_assoc.
    destruct (logged_by op); reflexivity.
Qed.

Lemma logged_of_sender dir ops :
  filter (λ m, sender m = sender_of dir) (omap logged_by ops) = sent dir ops.
Proof.
  unfold sent. induction ops as [|op ops IH]; [reflexivity|].
  destruct op, dir; csimpl; rewrite ?filter_cons; simpl;
    try (rewrite decide_True by reflexivity);
    try (rewrite decide_False by discriminate);
    try exact IH; f_equal; exact IH.
Qed.

(** X4.  The history accounts for the channels.  Along every run from a
    fresh mailbox in which [clear_history] is not called, the history is the
    list of all messages sent, in call order, and its entries with the sender
    of one direction are exactly the messages delivered in that direction
    followed by those still pending there; in particular every pending
    message is an entry of the history. *)
Theorem history_accounts_for_channels (dir : Direction) (ops : list Op) (cf : Config) :
  run ops init = Some cf →
  forallb (λ op, negb (is_clear op)) ops = true →
  get_conversation_history (mq cf) = omap logged_by ops ∧
  filter (λ m, sender m = sender_of dir) (get_conversation_history (mq cf)) =
    deliveries dir ops init ++ pending dir (mq cf) ∧
  pending dir (mq cf) ⊆ get_conversation_history (mq cf).
Proof.
  intros H Hall. unfold get_conversation_history.
  pose proof (run_logged ops _ _ H Hall) as Hh. simpl in Hh.
  pose proof (deliveries_in_send_order dir ops _ _ H) as E.
  simpl in E. replace (pending dir MessageQueue_init) with (@nil Message) in E
    by (destruct dir; reflexivity).
  simpl in E.
  assert (filter (λ m, sender m = sender_of dir) (conversation_history (mq cf)) =
          deliveries dir ops init ++ pending dir (mq cf)) as F.
  { rewrite Hh, E. apply logged_of_sender. }
  split; [exact Hh|]. split; [exact F|].
  intros m Hm.
  assert (m ∈ filter (λ m, sender m = sender_of dir) (conversation_history (mq cf))) as Hin.
  { rewrite F. apply elem_of_app. right. exact Hm. }
  apply list_elem_of_filter in Hin as [_ Hin]. exact Hin.
Qed.

Lemma history_accounts_for_channels_witness :
  let ops := [SendFromAgent "t1" "a"; SendFromCs "t2" "b";
              CallWait AgentToCs None; SendFromAgent "t3" "c";
              EndConversation] in
  ∃ cf, run ops init = Some cf ∧
        text <$> get_conversation_history (mq cf) = ["a"; "b"; "c"] ∧
        text <$> deliveries AgentToCs ops init = ["a"] ∧
        text <$> pending AgentToCs (mq cf) = ["c"] ∧
        pending AgentToCs (mq cf) ⊆ get_conversation_history (mq cf).
Proof.
  intros ops. eexists. split; [reflexivity|].
  split; [reflexivity|]. split; [reflexivity|]. split; [reflexivity|].
  exact (proj2 (proj2 (history_accounts_for_channels AgentToCs ops _ eq_refl eq_refl))).
Defined.

(** ** The flag *)

Lemma step_active op c c' :
  step op c = Some c' →
  is_active (mq c') = active_after [op] (is_active (mq c)).
Proof.
  unfold is_active. intros H.
  destruct op; simpl;
    try (injection H as <-; reflexivity);
    apply wait_op_frame in H as [_ ->]; reflexivity.
Qed.

(** X5.  The active flag after any run is decided by the last
    [send_from_agent] or [end_conversation] of the run: true after the one,
    false after the other, and the initial value when the run has neither.
    Waits, timeouts, [send_from_cs] and [clear_history] never change it. *)
Theorem active_is_decided_by_last_agent_send_or_end
    (ops : list Op) (c cf : Config) :
  run ops c = Some cf →
  is_active (mq cf) = active_after ops (is_active (mq c)).
Proof.
  revert c. induction ops as [|op ops IH]; simpl; intros c H.
  - injection H as <-. reflexivity.
  - destruct (step op c) as [c1|] eqn:Hstep; [|discriminate H].
    rewrite (IH _ H), (step_active _ _ _ Hstep). reflexivity.
Qed.

Lemma active_is_decided_by_last_agent_send_or_end_witness :
  let ops := [SendFromCs "t1" "hello?"; CallWait CsToAgent None;
              SendFromAgent "t2" "hi"; ClearHistory; EndConversation;
              SendFromCs "t3" "anyone?"] in
  ∃ cf, run ops init = Some cf ∧ is_active (mq cf) = false.
Proof.
  intros ops. eexists. split; [reflexivity|].
  exact (active_is_decided_by_last_agent_send_or_end ops init _ eq_refl).
Defined.

(** X6.  The flag and the history are observational only.  Two
    configurations that agree on the queues, the events and the tasks enable
    the same actions, and after any action they still agree on the queues, the
    events and the tasks, and hand over the same message: neither
    [end_conversation] nor [clear_history], nor the value of the flag or the
    contents of the history, ever changes what a send or a wait does. *)
Theorem flag_and_history_gate_nothing (op : Op) (c1 c2 : Config) :
  channels c1 = channels c2 →
  channels <$> step op c1 = channels <$> step op c2 ∧
  (∀ c1' c2', step op c1 = Some c1' → step op c2 = Some c2' →
              delivered op c1 c1' = delivered op c2 c2').
Proof.
  destruct c1 as [[a1 b1 ra1 rb1 h1 f1] ts1], c2 as [[a2 b2 ra2 rb2 h2 f2] ts2].
  unfold channels; simpl. intros [= -> -> -> -> ->].
  destruct op as [now message|now message|d timeout|i|i| |]; simpl.
  - split; [reflexivity|]. intros ? ? [= <-] [= <-]. reflexivity.
  - split; [reflexivity|]. intros ? ? [= <-] [= <-]. reflexivity.
  - unfold delivered, call_wait, channels; simpl.
    destruct (truthy timeout); [destruct timeout as [t|] |]; simpl;
      try destruct (Qle_bool t 0); simpl;
      destruct d; simpl;
      try destruct ra2; try destruct rb2; simpl;
      unfold agent_message_after_wait, cs_response_after_wait; simpl;
      try destruct a2; try destruct b2; simpl;
      (split; [reflexivity|]); intros ? ? [= <-] [= <-]; simpl;
      rewrite !lookup_new_task; reflexivity.
  - unfold delivered, channels; simpl.
    destruct (ts2 !! i) as [t|] eqn:Ht; simpl; [|split; [reflexivity|discriminate]].
    destruct (status t); simpl; try (split; [reflexivity|discriminate]).
    destruct (waits_on t); simpl;
      unfold agent_message_after_wait, cs_response_after_wait; simpl;
      try destruct a2; try destruct b2; simpl;
      (split; [reflexivity|]); intros ? ? [= <-] [= <-]; simpl; reflexivity.
  - unfold delivered, channels; simpl.
    destruct (ts2 !! i) as [t|] eqn:Ht; simpl; [|split; [reflexivity|discriminate]].
    destruct (status t), (timer t); simpl;
      (split; [reflexivity|]); try discriminate;
      intros ? ? [= <-] [= <-]; reflexivity.
  - split; [reflexivity|]. intros ? ? [= <-] [= <-]. reflexivity.
  - split; [reflexivity|]. intros ? ? [= <-] [= <-]. reflexivity.
Qed.

Lemma flag_and_history_gate_nothing_witness :
  let c1 := {| mq := send_from_agent "t1" "a" MessageQueue_init; tasks := [] |} in
  let c2 := {| mq := end_conversation (clear_history (mq c1)); tasks := [] |} in
  is_active (mq c1) ≠ is_active (mq c2) ∧
  channels <$> step (CallWait AgentToCs None) c1 =
  channels <$> step (CallWait AgentToCs None) c2.
Proof.
  intros c1 c2. split; [discriminate|].
  exact (proj1 (flag_and_history_gate_nothing (CallWait AgentToCs None) c1 c2 eq_refl)).
Defined.

(** ** Waits that meet a message *)





(** X9.  Strict alternation delivers everything.  From a configuration whose
    queue in a direction is empty and whose event is not set (a fresh mailbox
    in particular), sending a message and then waiting for it, message after
    message, never blocks: every wait returns at once the text just sent, the
    hand-overs are all the messages in order, and the queue is empty and the
    event unset again at the end. *)
Theorem alternation_delivers_everything
    (dir : Direction) (l : list (string * string)) : ∀ c : Config,
  pending dir (mq c) = [] → ready dir (mq c) = false →
  ∃ cf,
    run (exchange dir l) c = Some cf ∧
    deliveries dir (exchange dir l) c =
      (λ '(now, message), message_data dir now message) <$> l ∧
    pending dir (mq cf) = [] ∧ ready dir (mq cf) = false ∧
    length (tasks cf) = length (tasks c) + length l ∧
    ∀ k now message,
      l !! k = Some (now, message) →
      observed (length (tasks c) + k) cf = Some (Return message).
Proof.
  induction l as [|[now message] l IH]; intros c Hp Hr.
  - exists c. simpl. repeat split; auto; try lia. intros k ? ? [=].
  - destruct (send_op_mailbox dir now message c) as (c1 & H1 & Hl1 & Hr1 & Hp1).
    rewrite Hp in Hp1. simpl in Hp1.
    destruct (call_wait_ready dir c1 _ _ Hr1 Hp1) as (c2 & H2 & Hd2 & Ho2).
    pose proof (delivered_pop _ _ _ _ _ H2 Hd2) as Ha.
    apply after_wait_got in Ha as [Hp2 Hr2].
    rewrite Hp1 in Hp2. injection Hp2 as Hp2. symmetry in Hp2.
    assert (length (tasks c2) = S (length (tasks c))) as Hl2.
    { injection H2 as <-. destruct (call_wait_tasks dir None c1) as (tn & -> & _).
      rewrite length_app, Hl1. simpl. lia. }
    destruct (IH c2 Hp2 Hr2) as (cf & Hrun & Hdel & Hpf & Hrf & Hlf & Hobs).
    exists cf.
    assert (call_wait dir None c1 = c2) as Hcw by (simpl in H2; congruence).
    assert (delivered (send_op dir now message) c c1 = None) as Hd1
        by (destruct dir; reflexivity).
    split.
    { unfold exchange in *. csimpl. rewrite H1, Hcw. exact Hrun. }
    split.
    { unfold exchange in *. csimpl. rewrite H1, Hcw.
      unfold handed. rewrite Hd1, Hd2, decide_True by reflexivity.
      simpl. f_equal. exact Hdel. }
    split; [exact Hpf|]. split; [exact Hrf|]. split.
    { rewrite Hlf, Hl2. simpl. lia. }
    intros [|k] now' message' Hk.
    + injection Hk as <- <-. rewrite Nat.add_0_r.
      (* the first wait is finished in [c2] and stays as it is *)
      unfold observed in Ho2 |- *. rewrite Hl1 in Ho2.
      destruct (tasks c2 !! length (tasks c)) as [t0|] eqn:Ht0; [|discriminate Ho2].
      destruct (status t0) as [| |o] eqn:Hs0; try discriminate Ho2.
      rewrite (done_is_final _ _ _ _ _ _ Hrun Ht0 Hs0), Hs0. exact Ho2.
    + simpl in Hk. specialize (Hobs k _ _ Hk).
      rewrite Hl2 in Hobs. replace (length (tasks c) + S k) with (S (length (tasks c)) + k)
        by lia. exact Hobs.
Qed.

Lemma alternation_delivers_everything_witness :
  ∃ cf,
    run (exchange AgentToCs [("t1", "A"); ("t2", "B"); ("t3", "C")]) init = Some cf ∧
    observed 0 cf = Some (Return "A") ∧
    observed 1 cf = Some (Return "B") ∧
    observed 2 cf = Some (Return "C").
Proof.
  destruct (alternation_delivers_everything AgentToCs
              [("t1", "A"); ("t2", "B"); ("t3", "C")] init eq_refl eq_refl)
    as (cf & H & _ & _ & _ & _ & Hobs).
  exists cf. split; [exact H|].
  split; [exact (Hobs 0 _ _ eq_refl)|].
  split; [exact (Hobs 1 _ _ eq_refl) | exact (Hobs 2 _ _ eq_refl)].
Defined.

(** * The process-wide queue and its users *)

(** ** The store of queue objects *)

Lemma queue_at_act_on_same a op g :
  a < length (heap g) →
  queue_at a (act_on a op g) = default (queue_at a g) (step op (queue_at a g)).
Proof.
  intros Ha. unfold queue_at at 1, act_on; simpl.
  rewrite list_lookup_insert_eq by exact Ha. reflexivity.
Qed.

Lemma queue_at_act_on_other a b op g :
  a ≠ b → queue_at b (act_on a op g) = queue_at b g.
Proof.
  intros Hne. unfold queue_at, act_on; simpl.
  rewrite list_lookup_insert_ne by exact Hne. reflexivity.
Qed.

Lemma act_on_length a op g : length (heap (act_on a op g)) = length (heap g).
Proof. unfold act_on; simpl. apply length_insert. Qed.

Lemma act_on_wf a op g : Globals_wf g → Globals_wf (act_on a op g).
Proof. intros Hwf b Hb. rewrite act_on_length. apply Hwf. exact Hb. Qed.

Lemma Globals_init_wf : Globals_wf Globals_init.
Proof. intros a [=]. Qed.

Lemma reset_global_queue_wf g : Globals_wf (reset_global_queue g).
Proof. intros a [=]. Qed.

(** What [get_global_queue] returns and leaves behind. *)
Lemma get_global_queue_spec g a g1 :
  Globals_wf g → get_global_queue g = (a, g1) →
  Globals_wf g1 ∧ _global_queue g1 = Some a ∧ a < length (heap g1) ∧
  (∀ b, b < length (heap g) → queue_at b g1 = queue_at b g) ∧
  (_global_queue g = None →
   a = length (heap g) ∧ heap g1 = heap g ++ [init] ∧ queue_at a g1 = init) ∧
  (_global_queue g ≠ None → g1 = g).
Proof.
  intros Hwf. unfold get_global_queue.
  destruct (_global_queue g) as [a0|] eqn:Hg; intros [= <- <-].
  - split; [exact Hwf|]. split; [exact Hg|]. split; [apply Hwf; exact Hg|].
    split; [reflexivity|]. split; [discriminate | reflexivity].
  - split.
    { intros b [= <-]. simpl. rewrite length_app. simpl. lia. }
    simpl. split; [reflexivity|]. split; [rewrite length_app; simpl; lia|].
    split.
    { intros b Hb. unfold queue_at; simpl. rewrite lookup_app_l by exact Hb.
      reflexivity. }
    split; [|congruence]. intros _. split; [reflexivity|].
    split; [reflexivity|]. unfold queue_at; simpl.
    rewrite lookup_app_r, Nat.sub_diag by lia. reflexivity.
Qed.

(** ** Sending through the tool *)

Lemma increment_count key st n :
  count_of key st = Some n →
  increment key st = Ok (<[key := VInt (n + 1)]> st).
Proof.
  unfold count_of, increment.
  destruct (default (VInt 0) (st !! key)); intros [= <-]; reflexivity.
Qed.

Lemma count_of_empty key : count_of key ∅ = Some 0%Z.
Proof. unfold count_of. rewrite lookup_empty. reflexivity. Qed.

Lemma send_message_to_cs_ok now message st n g a g1 :
  count_of "messages_sent_to_cs" st = Some n →
  get_global_queue g = (a, g1) →
  NegotiationAgent.send_message_to_cs now message st g =
    (Ok ("Message sent to CS: '" +:+ message +:+ "'"),
     <["messages_sent_to_cs" := VInt (n + 1)]> st,
     act_on a (SendFromAgent now message) g1).
Proof.
  intros Hc Hg. unfold NegotiationAgent.send_message_to_cs.
  rewrite (increment_count _ _ _ Hc), Hg. reflexivity.
Qed.

(** The mailbox at an address after a send from the agent on it. *)
Lemma queue_after_agent_send a now message g :
  a < length (heap g) →
  mq (queue_at a (act_on a (SendFromAgent now message) g)) =
    send_from_agent now message (mq (queue_at a g)).
Proof. intros Ha. rewrite queue_at_act_on_same by exact Ha. reflexivity. Qed.

Lemma queue_after_cs_send a now message g :
  a < length (heap g) →
  mq (queue_at a (act_on a (SendFromCs now message) g)) =
    send_from_cs now message (mq (queue_at a g)).
Proof. intros Ha. rewrite queue_at_act_on_same by exact Ha. reflexivity. Qed.

(** X10.  One queue for everybody.  A [CSSimulatorCLI] keeps the address that
    [get_global_queue] gave it, and [send_message_to_cs] sends to the object
    that [get_global_queue] gives at the time of the call: as long as
    [reset_global_queue] is not called these are the same object, so the
    message sent by the tool is appended to the history and to the
    agent-to-CS queue that the simulator reads, the event the simulator waits
    on is set, and a simulator created afterwards holds the same address. *)
Theorem tool_and_simulator_share_the_queue
    (g g1 g2 : Globals) (cli : CSSimulatorCLI.CLI)
    (st st' : gmap string Value) (r : Except string) (now message : string) (n : Z) :
  Globals_wf g →
  CSSimulatorCLI.__init__ g = (cli, g1) →
  count_of "messages_sent_to_cs" st = Some n →
  NegotiationAgent.send_message_to_cs now message st g1 = (r, st', g2) →
  r = Ok ("Message sent to CS: '" +:+ message +:+ "'") ∧
  get_conversation_history (mq (queue_at (CSSimulatorCLI.queue cli) g2)) =
    get_conversation_history (mq (queue_at (CSSimulatorCLI.queue cli) g1)) ++
    [message_data AgentToCs now message] ∧
  agent_to_cs (mq (queue_at (CSSimulatorCLI.queue cli) g2)) =
    agent_to_cs (mq (queue_at (CSSimulatorCLI.queue cli) g1)) ++
    [message_data AgentToCs now message] ∧
  agent_message_ready (mq (queue_at (CSSimulatorCLI.queue cli) g2)) = true ∧
  CSSimulatorCLI.__init__ g2 = (cli, g2).
Proof.
  intros Hwf Hinit Hc Hsend.
  unfold CSSimulatorCLI.__init__ in Hinit.
  destruct (get_global_queue g) as [a ga] eqn:Hg. injection Hinit as <- <-.
  destruct (get_global_queue_spec _ _ _ Hwf Hg) as (Hwf1 & Hg1 & Ha & _).
  assert (get_global_queue ga = (a, ga)) as Hg'
      by (unfold get_global_queue; rewrite Hg1; reflexivity).
  rewrite (send_message_to_cs_ok _ _ _ _ _ _ _ Hc Hg') in Hsend.
  injection Hsend as <- <- <-. simpl.
  rewrite (queue_after_agent_send _ _ _ _ Ha).
  split; [reflexivity|]. split; [reflexivity|]. split; [reflexivity|].
  split; [reflexivity|].
  unfold CSSimulatorCLI.__init__, get_global_queue. simpl. rewrite Hg1.
  reflexivity.
Qed.

Lemma tool_and_simulator_share_the_queue_witness :
  ∃ cli g1 st' g2,
    CSSimulatorCLI.__init__ Globals_init = (cli, g1) ∧
    NegotiationAgent.send_message_to_cs "t1" "Where is my refund?" ∅ g1 =
      (Ok "Message sent to CS: 'Where is my refund?'", st', g2) ∧
    text <$> get_conversation_history (mq (queue_at (CSSimulatorCLI.queue cli) g2)) =
      ["Where is my refund?"].
Proof.
  pose (cli := {| CSSimulatorCLI.queue := 0; CSSimulatorCLI.running := false |}).
  pose (g1 := {| heap := [init]; _global_queue := Some 0 |}).
  pose (r := NegotiationAgent.send_message_to_cs "t1" "Where is my refund?" ∅ g1).
  exists cli, g1, (r.1.2), (r.2).
  destruct (tool_and_simulator_share_the_queue Globals_init g1 (r.2) cli ∅ (r.1.2)
              (r.1.1) "t1" "Where is my refund?" 0 Globals_init_wf eq_refl
              (count_of_empty _))
    as (Hr & Hh & _).
  { subst r. destruct (NegotiationAgent.send_message_to_cs _ _ _ _) as [[? ?] ?].
    reflexivity. }
  split; [reflexivity|]. split.
  - subst r. destruct (NegotiationAgent.send_message_to_cs _ _ _ _) as [[r0 s0] g0].
    simpl in *. rewrite Hr. reflexivity.
  - rewrite Hh. reflexivity.
Defined.

(** X11.  [reset_global_queue] detaches earlier handles.  After a reset, the
    next [get_global_queue] creates a new object at a new address; a
    simulator created before the reset still holds the old address, so a
    message that the tool sends after the reset goes to the new object only,
    and the simulator's queue, its history included, is as it was. *)
Theorem reset_detaches_the_simulator
    (g g1 g2 : Globals) (cli : CSSimulatorCLI.CLI)
    (st st' : gmap string Value) (r : Except string) (now message : string) (n : Z) :
  Globals_wf g →
  CSSimulatorCLI.__init__ g = (cli, g1) →
  count_of "messages_sent_to_cs" st = Some n →
  NegotiationAgent.send_message_to_cs now message st (reset_global_queue g1) =
    (r, st', g2) →
  queue_at (CSSimulatorCLI.queue cli) g2 = queue_at (CSSimulatorCLI.queue cli) g1 ∧
  ∃ a', _global_queue g2 = Some a' ∧
        a' ≠ CSSimulatorCLI.queue cli ∧
        get_conversation_history (mq (queue_at a' g2)) =
          [message_data AgentToCs now message].
Proof.
  intros Hwf Hinit Hc Hsend.
  unfold CSSimulatorCLI.__init__ in Hinit.
  destruct (get_global_queue g) as [a ga] eqn:Hg. injection Hinit as <- <-.
  destruct (get_global_queue_spec _ _ _ Hwf Hg) as (Hwf1 & Hg1 & Ha & _).
  destruct (get_global_queue (reset_global_queue ga)) as [a' gb] eqn:Hg'.
  destruct (get_global_queue_spec _ _ _ (reset_global_queue_wf ga) Hg')
    as (Hwfb & Hgb & Ha' & Hold & Hnew & _).
  destruct (Hnew eq_refl) as (Ea' & Hheap & Hfresh). simpl in Ea', Hheap.
  rewrite (send_message_to_cs_ok _ _ _ _ _ _ _ Hc Hg') in Hsend.
  injection Hsend as <- <- <-. simpl.
  assert (a' ≠ a) as Hne by lia.
  split.
  - rewrite queue_at_act_on_other by exact Hne. apply Hold. exact Ha.
  - exists a'. split; [exact Hgb|]. split; [exact Hne|].
    rewrite (queue_after_agent_send _ _ _ _ Ha'), Hfresh. reflexivity.
Qed.

Lemma reset_detaches_the_simulator_witness :
  ∃ cli g1 r st' g2,
    CSSimulatorCLI.__init__ Globals_init = (cli, g1) ∧
    NegotiationAgent.send_message_to_cs "t1" "hello" ∅ (reset_global_queue g1) =
      (r, st', g2) ∧
    get_conversation_history (mq (queue_at (CSSimulatorCLI.queue cli) g2)) = [] ∧
    _global_queue g2 = Some 1.
Proof.
  pose (cli := {| CSSimulatorCLI.queue := 0; CSSimulatorCLI.running := false |}).
  pose (g1 := {| heap := [init]; _global_queue := Some 0 |}).
  pose (x := NegotiationAgent.send_message_to_cs "t1" "hello" ∅ (reset_global_queue g1)).
  exists cli, g1, (x.1.1), (x.1.2), (x.2).
  assert (x = (x.1.1, x.1.2, x.2)) as Hx by (destruct x as [[? ?] ?]; reflexivity).
  destruct (reset_detaches_the_simulator Globals_init g1 (x.2) cli ∅ (x.1.2)
              (x.1.1) "t1" "hello" 0 Globals_init_wf eq_refl
              (count_of_empty _) Hx)
    as (Hsame & a' & Ha' & _).
  split; [reflexivity|]. split; [exact Hx|]. split.
  - rewrite Hsame. reflexivity.
  - reflexivity.
Defined.

(** ** The counters of the agent state *)







(** ** From one side to the other *)






(** * Reading the history *)

(** No message dictionary has a ["role"] key. *)
Lemma getitem_role entry : getitem entry "role" = Err (KeyError "role").
Proof. reflexivity. Qed.

Lemma count_role_cons role h history :
  NegotiationAgent.count_role role (h :: history) = Err (KeyError "role").
Proof. reflexivity. Qed.

(** X15.  [analyze_negotiation_progress] works on an empty history only.
    Whatever the agent state: when the history of the global queue is empty
    the tool returns the text "No conversation history yet. Negotiation has
    not started."; as soon as the history has an entry it raises
    [KeyError('role')], because the entries written by the two sends carry
    the keys text, timestamp and sender.  In both cases the global queue is
    the one that [get_global_queue] gives. *)
Theorem analyze_needs_an_empty_history
    (str_value : Value → string) (str_upper : string → string)
    (str_prefix : nat → string → string)
    (st : gmap string Value) (g g1 : Globals) (a : nat) :
  get_global_queue g = (a, g1) →
  (get_conversation_history (mq (queue_at a g1)) = [] →
   NegotiationAgent.analyze_negotiation_progress str_value str_upper str_prefix st g =
     (Ok "No conversation history yet. Negotiation has not started.", g1)) ∧
  (get_conversation_history (mq (queue_at a g1)) ≠ [] →
   NegotiationAgent.analyze_negotiation_progress str_value str_upper str_prefix st g =
     (Err (KeyError "role"), g1)).
Proof.
  intros Hg. unfold NegotiationAgent.analyze_negotiation_progress. rewrite Hg.
  destruct (get_conversation_history (mq (queue_at a g1))) as [|h history].
  - split; [reflexivity | congruence].
  - split; [discriminate|]. intros _. rewrite count_role_cons. reflexivity.
Qed.

Lemma analyze_needs_an_empty_history_witness :
  let g := {| heap := [{| mq := send_from_agent "t1" "hello" MessageQueue_init;
                           tasks := [] |}];
              _global_queue := Some 0 |} in
  NegotiationAgent.analyze_negotiation_progress
      (λ _, "0") (λ s, s) (λ _ s, s) ∅ Globals_init =
    (Ok "No conversation history yet. Negotiation has not started.",
     {| heap := [init]; _global_queue := Some 0 |}) ∧
  NegotiationAgent.analyze_negotiation_progress (λ _, "0") (λ s, s) (λ _ s, s) ∅ g =
    (Err (KeyError "role"), g).
Proof.
  intros g. split.
  - exact (proj1 (analyze_needs_an_empty_history (λ _, "0") (λ s, s) (λ _ s, s) ∅
                    Globals_init _ 0 eq_refl) eq_refl).
  - apply (proj2 (analyze_needs_an_empty_history (λ _, "0") (λ s, s) (λ _ s, s) ∅
                    g g 0 eq_refl)).
    discriminate.
Defined.

(** X16.  [display_history] works on an empty history only.  With an empty
    history it prints "[No conversation history yet]"; with any entry it
    prints the three lines of the heading and then raises [KeyError('role')]
    at the first entry, before printing any message. *)
Theorem display_history_needs_an_empty_history
    (str_upper : string → string)
    (self : CSSimulatorCLI.CLI) (g : Globals) (out : string) :
  (get_conversation_history (mq (queue_at (CSSimulatorCLI.queue self) g)) = [] →
   CSSimulatorCLI.display_history str_upper self g out =
     (Ok (), print (nl +:+ "[No conversation history yet]" +:+ nl) out)) ∧
  (get_conversation_history (mq (queue_at (CSSimulatorCLI.queue self) g)) ≠ [] →
   CSSimulatorCLI.display_history str_upper self g out =
     (Err (KeyError "role"),
      print (str_mul "=" 70)
        (print "  CONVERSATION HISTORY" (print (nl +:+ str_mul "=" 70) out)))).
Proof.
  unfold CSSimulatorCLI.display_history.
  destruct (get_conversation_history _) as [|h history].
  - split; [reflexivity | congruence].
  - split; [discriminate | reflexivity].
Qed.

Lemma display_history_needs_an_empty_history_witness :
  let self := {| CSSimulatorCLI.queue := 0; CSSimulatorCLI.running := true |} in
  let g := {| heap := [{| mq := send_from_cs "t1" "hello" MessageQueue_init;
                           tasks := [] |}];
              _global_queue := Some 0 |} in
  (CSSimulatorCLI.display_history (λ s, s) self g "").1 = Err (KeyError "role") ∧
  (CSSimulatorCLI.display_history (λ s, s) self
     {| heap := [init]; _global_queue := Some 0 |} "").1 = Ok ().
Proof.
  intros self g. split.
  - rewrite (proj2 (display_history_needs_an_empty_history (λ s, s) self g ""));
      [reflexivity | discriminate].
  - rewrite (proj1 (display_history_needs_an_empty_history (λ s, s) self
                      {| heap := [init]; _global_queue := Some 0 |} "") eq_refl).
    reflexivity.
Defined.

(** * The simulator's command loop *)

Lemma display_history_result str_upper self g out r out' :
  CSSimulatorCLI.display_history str_upper self g out = (r, out') →
  r = Ok () ∨ r = Err (KeyError "role").
Proof.
  unfold CSSimulatorCLI.display_history.
  destruct (get_conversation_history _) as [|h history]; intros [= <- <-]; auto.
Qed.

(** X17.  The command loop sends one proper reply, or nothing.  Whatever
    lines are typed, the inner loop of [run] ends in one of three ways.  When
    it has sent a reply, it has sent exactly one: the stripped text of a line
    that was typed, which is not empty and is neither [/quit] nor [/history]
    in any letter case.  When it ends by [/quit] it has sent nothing and
    [running] is false.  When it ends by an exception, this is [EOFError]
    (no line left) or [KeyError('role')] (from [/history]), and nothing was
    sent.  The lines it leaves are a suffix of the lines it was given. *)
Theorem command_loop_sends_one_proper_reply_or_nothing
    (str_strip str_lower str_upper : string → string)
    (now : string) (self : CSSimulatorCLI.CLI) (stdin : list string)
    (g : Globals) :
  ∀ (out : string) exit self' stdin' g' out',
    CSSimulatorCLI.command_loop str_strip str_lower str_upper now self stdin g out =
      (exit, self', stdin', g', out') →
    stdin' `suffix_of` stdin ∧
    CSSimulatorCLI.queue self' = CSSimulatorCLI.queue self ∧
    match exit with
    | CSSimulatorCLI.Sent =>
        ∃ line, line ∈ stdin ∧
                str_strip line ≠ "" ∧
                str_lower (str_strip line) ≠ "/quit" ∧
                str_lower (str_strip line) ≠ "/history" ∧
                g' = CSSimulatorCLI.send_cs_response now (str_strip line) self g ∧
                self' = self ∧
                length stdin' < length stdin
    | CSSimulatorCLI.Quit =>
        g' = g ∧ CSSimulatorCLI.running self' = false
    | CSSimulatorCLI.Raised e =>
        g' = g ∧ self' = self ∧ (e = EOFError ∨ e = KeyError "role")
    end.
Proof.
  induction stdin as [|line stdin IH]; intros out exit self' stdin' g' out'; simpl.
  - intros [= <- <- <- <- <-]. split; [reflexivity|]. split; [reflexivity|]. auto.
  - destruct (decide (str_lower (str_strip line) = "/quit")) as [Hq|Hq].
    { intros [= <- <- <- <- <-]. split; [apply suffix_cons_r; reflexivity|].
      split; [reflexivity|]. auto. }
    destruct (decide (str_lower (str_strip line) = "/history")) as [Hh|Hh].
    { destruct (CSSimulatorCLI.display_history _ _ _ _) as [r out1] eqn:Hd.
      destruct (display_history_result _ _ _ _ _ _ Hd) as [-> | ->].
      - intros H. destruct (IH _ _ _ _ _ _ H) as (Hsuf & Hqueue & Hexit).
        split; [apply suffix_cons_r; exact Hsuf|]. split; [exact Hqueue|].
        destruct exit; [|exact Hexit..].
        destruct Hexit as (l & Hl & H1 & H2 & H3 & H4 & H5 & H6).
        exists l. split; [apply elem_of_cons; right; exact Hl|].
        repeat (split; [assumption|]). simpl. lia.
      - intros [= <- <- <- <- <-]. split; [apply suffix_cons_r; reflexivity|].
        split; [reflexivity|]. auto. }
    destruct (decide (str_strip line = "")) as [He|He].
    { intros H. destruct (IH _ _ _ _ _ _ H) as (Hsuf & Hqueue & Hexit).
      split; [apply suffix_cons_r; exact Hsuf|]. split; [exact Hqueue|].
      destruct exit; [|exact Hexit..].
      destruct Hexit as (l & Hl & H1 & H2 & H3 & H4 & H5 & H6).
      exists l. split; [apply elem_of_cons; right; exact Hl|].
      repeat (split; [assumption|]). simpl. lia. }
    intros [= <- <- <- <- <-]. split; [apply suffix_cons_r; reflexivity|].
    split; [reflexivity|].
    exists line. split; [apply elem_of_cons; left; reflexivity|].
    repeat (split; [assumption || reflexivity|]). simpl. lia.
Qed.

Lemma command_loop_sends_one_proper_reply_or_nothing_witness :
  let self := {| CSSimulatorCLI.queue := 0; CSSimulatorCLI.running := true |} in
  let g := {| heap := [init]; _global_queue := Some 0 |} in
  ∃ self' g' out',
    CSSimulatorCLI.command_loop (λ s, s) (λ s, s) (λ s, s) "t1" self
        [""; "/history"; "We are sorry"; "/quit"] g "" =
      (CSSimulatorCLI.Sent, self', ["/quit"], g', out') ∧
    text <$> cs_to_agent (mq (queue_at 0 g')) = ["We are sorry"] ∧
    ["/quit"] `suffix_of` [""; "/history"; "We are sorry"; "/quit"] ∧
    self' = self.
Proof.
  intros self g. eexists _, _, _. split; [reflexivity|]. split; [reflexivity|].
  destruct (command_loop_sends_one_proper_reply_or_nothing
              (λ s, s) (λ s, s) (λ s, s) "t1" self
              [""; "/history"; "We are sorry"; "/quit"] g "" _ _ _ _ _ eq_refl)
    as (Hsuf & _ & line & _ & _ & _ & _ & _ & Hself & _).
  split; [exact Hsuf | exact Hself].
Defined.

(** * The simulator's main loop *)

(** A wait of the simulator that completes without suspending has not timed
    out. *)
Lemma immediate_outcome_not_timeout q g o' :
  status <$> tasks (queue_at q (act_on q (CallWait AgentToCs (Some 300%Q)) g))
             !! length (tasks (queue_at q g)) = Some (Done o') →
  o' ≠ TimedOut.
Proof.
  destruct (decide (q < length (heap g))) as [Hq|Hq].
  - rewrite queue_at_act_on_same by exact Hq. simpl.
    rewrite (call_wait_positive AgentToCs 300%Q (queue_at q g)) by reflexivity.
    destruct (after_wait AgentToCs (mq (queue_at q g))) as [o q'] eqn:Ha.
    destruct (ready AgentToCs (mq (queue_at q g))); simpl;
      rewrite lookup_new_task; simpl; intros [= <-].
    eapply after_wait_not_timed_out, Ha.
  - unfold queue_at, act_on; simpl.
    rewrite list_insert_ge by lia.
    rewrite (lookup_ge_None_2 (heap g) q) by lia. simpl. discriminate.
Qed.

Lemma command_loop_sent_shorter str_strip str_lower str_upper now self stdin g out
    self' stdin' g' out' :
  CSSimulatorCLI.command_loop str_strip str_lower str_upper now self stdin g out =
    (CSSimulatorCLI.Sent, self', stdin', g', out') →
  length stdin' < length stdin ∧ self' = self.
Proof.
  revert out. induction stdin as [|line stdin IH]; intros out; simpl.
  - discriminate.
  - repeat case_decide.
    + discriminate.
    + destruct (CSSimulatorCLI.display_history _ _ _ _) as [[[]|e] out1];
        [|discriminate].
      intros Hl. destruct (IH _ Hl). split; [lia | assumption].
    + intros Hl. destruct (IH _ Hl). split; [lia | assumption].
    + intros [= <- <- <- <-]. split; [lia | reflexivity].
Qed.

Lemma run_resume_returns_aux str_strip str_lower str_upper clock : ∀ fuel o self stdin g out,
  length stdin + match o with TimedOut => 1 | _ => 0 end < fuel →
  is_Some (CSSimulatorCLI.run_resume str_strip str_lower str_upper
             fuel clock o self stdin g out).
Proof.
  induction fuel as [|fuel IH]; intros o self stdin g out Hfuel; [lia|].
  assert (∀ self stdin g out,
            length stdin < fuel →
            is_Some
              (if CSSimulatorCLI.running self then
                 let '(i, g0) := CSSimulatorCLI.wait_for_customer_message_call self g in
                 match status <$> tasks (queue_at (CSSimulatorCLI.queue self) g0) !! i with
                 | Some (Done o') =>
                     CSSimulatorCLI.run_resume str_strip str_lower str_upper
                       fuel clock o' self stdin g0 out
                 | _ => Some (CSSimulatorCLI.Awaiting i, self, stdin, g0, out)
                 end
               else Some (CSSimulatorCLI.Ended, self, stdin, g, CSSimulatorCLI.cleanup out)))
    as Hagain.
  { clear o self stdin g out Hfuel. intros self stdin g out Hlen.
    destruct (CSSimulatorCLI.running self); [|eexists; reflexivity].
    unfold CSSimulatorCLI.wait_for_customer_message_call.
    destruct (status <$> _ !! _) as [[| |o']|] eqn:Hst; try (eexists; reflexivity).
    apply IH. apply immediate_outcome_not_timeout in Hst.
    destruct o'; [lia | lia | congruence]. }
  simpl. destruct o as [m| |]; simpl.
  - destruct (CSSimulatorCLI.command_loop _ _ _ _ _ _ _ _)
      as [[[[[| |e] self1] stdin1] g1] out1] eqn:Hloop;
      try (eexists; reflexivity).
    apply command_loop_sent_shorter in Hloop as [Hlen _].
    apply Hagain. simpl in Hfuel. lia.
  - destruct (CSSimulatorCLI.command_loop _ _ _ _ _ _ _ _)
      as [[[[[| |e] self1] stdin1] g1] out1] eqn:Hloop;
      try (eexists; reflexivity).
    apply command_loop_sent_shorter in Hloop as [Hlen _].
    apply Hagain. simpl in Hfuel. lia.
  - apply Hagain. simpl in Hfuel. lia.
Qed.

(** X18.  [run] always comes to a suspension or to its end.  From its call,
    and from the completion of any of its waits, the loop reads at most the
    lines that are typed: with fuel for two rounds more than there are lines
    it returns, either suspended in its next wait or ended. *)
Theorem run_always_returns
    (str_strip str_lower str_upper : string → string) (clock : nat → string)
    (fuel : nat) (o : Outcome) (self : CSSimulatorCLI.CLI) (stdin : list string)
    (g : Globals) (out : string) :
  length stdin + 2 ≤ fuel →
  is_Some (CSSimulatorCLI.run str_strip str_lower str_upper
             fuel clock self stdin g out) ∧
  is_Some (CSSimulatorCLI.run_resume str_strip str_lower str_upper
             fuel clock o self stdin g out).
Proof.
  intros Hfuel. split.
  - unfold CSSimulatorCLI.run, CSSimulatorCLI.wait_for_customer_message_call.
    simpl.
    destruct (status <$> _ !! _) as [[| |o']|] eqn:Hst; try (eexists; reflexivity).
    apply run_resume_returns_aux.
    apply immediate_outcome_not_timeout in Hst. destruct o'; lia || congruence.
  - apply run_resume_returns_aux. destruct o; lia.
Qed.

Lemma run_always_returns_witness :
  let self := {| CSSimulatorCLI.queue := 0; CSSimulatorCLI.running := false |} in
  let g := {| heap := [{| mq := send_from_agent "t0" "hello" MessageQueue_init;
                           tasks := [] |}];
              _global_queue := Some 0 |} in
  is_Some (CSSimulatorCLI.run (λ s, s) (λ s, s) (λ s, s) 3 (λ _, "t")
             self ["hi there"] g "").
Proof.
  intros self g.
  apply (run_always_returns (λ s, s) (λ s, s) (λ s, s) (λ _, "t") 3 Empty self
           ["hi there"] g ""). simpl. lia.
Defined.

(** ** What the main loop writes into the mailbox *)

Lemma replied_refl str_lower q g : replied str_lower q g g [].
Proof.
  unfold replied. rewrite !app_nil_r. repeat split; auto.
Qed.

Lemma replied_trans str_lower q g1 g2 g3 r1 r2 :
  replied str_lower q g1 g2 r1 → replied str_lower q g2 g3 r2 →
  replied str_lower q g1 g3 (r1 ++ r2).
Proof.
  intros (L1 & G1 & O1 & H1 & C1 & A1 & F1) (L2 & G2 & O2 & H2 & C2 & A2 & F2).
  unfold replied. rewrite H2, H1, C2, C1, !app_assoc.
  split; [congruence|]. split; [congruence|].
  split; [intros b Hb; rewrite O2, O1 by exact Hb; reflexivity|].
  split; [reflexivity|]. split; [reflexivity|]. split; [congruence|].
  apply Forall_app. split; assumption.
Qed.

Lemma call_wait_other_queue timeout c :
  cs_to_agent (mq (call_wait AgentToCs timeout c)) = cs_to_agent (mq c).
Proof.
  unfold call_wait.
  destruct (truthy timeout); [destruct timeout as [t|] |]; simpl;
    try destruct (Qle_bool t 0); simpl;
    try (destruct (agent_message_ready (mq c)); simpl);
    unfold agent_message_after_wait;
    try (destruct (agent_to_cs (mq c)); simpl); reflexivity.
Qed.

(** The simulator's wait changes nothing that a reply is about. *)
Lemma replied_wait str_lower q g :
  replied str_lower q g (act_on q (CallWait AgentToCs (Some 300%Q)) g) [].
Proof.
  unfold replied. rewrite !app_nil_r, act_on_length.
  split; [reflexivity|]. split; [reflexivity|].
  split; [intros b Hb; apply queue_at_act_on_other; congruence|].
  destruct (decide (q < length (heap g))) as [Hq|Hq].
  - rewrite queue_at_act_on_same by exact Hq. simpl.
    destruct (call_wait_frame AgentToCs (Some 300%Q) (queue_at q g)) as [-> ->].
    rewrite call_wait_other_queue. repeat split; constructor.
  - assert (act_on q (CallWait AgentToCs (Some 300%Q)) g = g) as ->.
    { unfold act_on. rewrite list_insert_ge by lia. destruct g; reflexivity. }
    repeat split; constructor.
Qed.

Lemma replied_send str_lower q now response g :
  q < length (heap g) →
  response ≠ "" → str_lower response ≠ "/quit" → str_lower response ≠ "/history" →
  replied str_lower q g (act_on q (SendFromCs now response) g)
    [message_data CsToAgent now response].
Proof.
  intros Hq H1 H2 H3. unfold replied. rewrite act_on_length.
  split; [reflexivity|]. split; [reflexivity|].
  split; [intros b Hb; apply queue_at_act_on_other; congruence|].
  rewrite queue_at_act_on_same by exact Hq. simpl.
  split; [reflexivity|]. split; [reflexivity|]. split; [reflexivity|].
  constructor; [|constructor]. repeat split; assumption.
Qed.

Lemma replied_length str_lower q g g' r :
  replied str_lower q g g' r → length (heap g') = length (heap g).
Proof. intros (L & _). exact L. Qed.

Lemma run_resume_replied
    (str_strip str_lower str_upper : string → string) (clock : nat → string) :
  ∀ (fuel : nat) (o : Outcome) (self : CSSimulatorCLI.CLI) (stdin : list string)
    (g : Globals) (out : string) next self' stdin' g' out',
    CSSimulatorCLI.queue self < length (heap g) →
    CSSimulatorCLI.run_resume str_strip str_lower str_upper
      fuel clock o self stdin g out = Some (next, self', stdin', g', out') →
    CSSimulatorCLI.queue self' = CSSimulatorCLI.queue self ∧
    stdin' `suffix_of` stdin ∧
    ∃ replies,
      replied str_lower (CSSimulatorCLI.queue self) g g' replies ∧
      length replies + length stdin' ≤ length stdin.
Proof.
  induction fuel as [|fuel IH];
    intros o self stdin g out next self' stdin' g' out' Hq; [discriminate|].
  (* the continuation of the loop after a round *)
  assert (∀ self1 stdin1 g1 out1 r1,
            CSSimulatorCLI.queue self1 = CSSimulatorCLI.queue self →
            stdin1 `suffix_of` stdin →
            replied str_lower (CSSimulatorCLI.queue self) g g1 r1 →
            length r1 + length stdin1 ≤ length stdin →
            (if CSSimulatorCLI.running self1 then
               let '(i, g0) := CSSimulatorCLI.wait_for_customer_message_call self1 g1 in
               match status <$> tasks (queue_at (CSSimulatorCLI.queue self1) g0) !! i with
               | Some (Done o') =>
                   CSSimulatorCLI.run_resume str_strip str_lower str_upper
                     fuel clock o' self1 stdin1 g0 out1
               | _ => Some (CSSimulatorCLI.Awaiting i, self1, stdin1, g0, out1)
               end
             else Some (CSSimulatorCLI.Ended, self1, stdin1, g1,
                        CSSimulatorCLI.cleanup out1)) =
              Some (next, self', stdin', g', out') →
            CSSimulatorCLI.queue self' = CSSimulatorCLI.queue self ∧
            stdin' `suffix_of` stdin ∧
            ∃ replies,
              replied str_lower (CSSimulatorCLI.queue self) g g' replies ∧
              length replies + length stdin' ≤ length stdin) as Hagain.
  { intros self1 stdin1 g1 out1 r1 Hself Hsuf Hrep Hlen.
    destruct (CSSimulatorCLI.running self1).
    - unfold CSSimulatorCLI.wait_for_customer_message_call. rewrite Hself.
      pose proof (replied_wait str_lower (CSSimulatorCLI.queue self) g1) as Hw.
      pose proof (replied_trans _ _ _ _ _ _ _ Hrep Hw) as Hrep'.
      rewrite app_nil_r in Hrep'.
      destruct (status <$> _ !! _) as [[| |o']|];
        try (intros [= <- <- <- <- <-]; split; [exact Hself|];
             split; [exact Hsuf|]; exists r1; split; [exact Hrep' | exact Hlen]).
      intros Hrun.
      assert (CSSimulatorCLI.queue self1 <
              length (heap (act_on (CSSimulatorCLI.queue self)
                              (CallWait AgentToCs (Some 300%Q)) g1))) as Hq1.
      { rewrite Hself, (replied_length _ _ _ _ _ Hrep'). exact Hq. }
      destruct (IH _ _ _ _ _ _ _ _ _ _ Hq1 Hrun)
        as (Hself' & Hsuf' & r2 & Hrep2 & Hlen2).
      rewrite Hself in Hself', Hrep2.
      split; [exact Hself'|]. split; [etrans; eassumption|].
      exists (r1 ++ r2). split; [eapply replied_trans; eassumption|].
      rewrite length_app. lia.
    - intros [= <- <- <- <- <-]. split; [exact Hself|]. split; [exact Hsuf|].
      exists r1. split; [exact Hrep | exact Hlen]. }
  (* a round that begins with a customer message *)
  assert (∀ out0,
            match CSSimulatorCLI.command_loop str_strip str_lower str_upper
                    (clock (length (conversation_history
                                      (mq (queue_at (CSSimulatorCLI.queue self) g)))))
                    self stdin g out0 with
            | (CSSimulatorCLI.Raised e, self1, stdin1, g1, out1) =>
                Some (CSSimulatorCLI.Ended, self1, stdin1, g1,
                      CSSimulatorCLI.cleanup
                        (print (nl +:+ nl +:+ "[Error] " +:+ str_error e) out1))
            | (CSSimulatorCLI.Quit, self1, stdin1, g1, out1) =>
                Some (CSSimulatorCLI.Ended, self1, stdin1, g1,
                      CSSimulatorCLI.cleanup out1)
            | (CSSimulatorCLI.Sent, self1, stdin1, g1, out1) =>
                if CSSimulatorCLI.running self1 then
                  let '(i, g0) := CSSimulatorCLI.wait_for_customer_message_call self1 g1 in
                  match status <$> tasks (queue_at (CSSimulatorCLI.queue self1) g0) !! i with
                  | Some (Done o') =>
                      CSSimulatorCLI.run_resume str_strip str_lower str_upper fuel clock
                        o' self1 stdin1 g0
                        (print (nl +:+ "[Waiting for next customer message...]" +:+ nl) out1)
                  | _ => Some (CSSimulatorCLI.Awaiting i, self1, stdin1, g0,
                               print (nl +:+ "[Waiting for next customer message...]" +:+ nl) out1)
                  end
                else Some (CSSimulatorCLI.Ended, self1, stdin1, g1,
                           CSSimulatorCLI.cleanup
                             (print (nl +:+ "[Waiting for next customer message...]" +:+ nl) out1))
            end = Some (next, self', stdin', g', out') →
            CSSimulatorCLI.queue self' = CSSimulatorCLI.queue self ∧
            stdin' `suffix_of` stdin ∧
            ∃ replies,
              replied str_lower (CSSimulatorCLI.queue self) g g' replies ∧
              length replies + length stdin' ≤ length stdin) as Hround.
  { intros out0.
    destruct (CSSimulatorCLI.command_loop _ _ _ _ _ _ _ _)
      as [[[[exit self1] stdin1] g1] out1] eqn:Hloop.
    destruct (command_loop_sends_one_proper_reply_or_nothing _ _ _ _ _ _ _ _ _ _ _ _ _ Hloop)
      as (Hsuf & Hself & Hexit).
    destruct exit as [| |e].
    - destruct Hexit as (line & _ & H1 & H2 & H3 & -> & -> & Hshort).
      intros Hrun.
      eapply (Hagain self stdin1 _ _ [_] eq_refl Hsuf); [| |exact Hrun].
      + apply replied_send; assumption.
      + simpl. lia.
    - destruct Hexit as [-> _]. intros [= <- <- <- <- <-].
      split; [exact Hself|]. split; [exact Hsuf|].
      exists []. split; [apply replied_refl | simpl; apply suffix_length in Hsuf; lia].
    - destruct Hexit as (-> & -> & _). intros [= <- <- <- <- <-].
      split; [reflexivity|]. split; [exact Hsuf|].
      exists []. split; [apply replied_refl | simpl; apply suffix_length in Hsuf; lia]. }
  simpl. destruct o as [m| |]; simpl.
  - intros Hrun. exact (Hround _ Hrun).
  - intros Hrun. exact (Hround _ Hrun).
  - intros Hrun.
    eapply (Hagain self stdin g _ [] eq_refl); [reflexivity | apply replied_refl | | exact Hrun].
    simpl. lia.
Qed.

(** X19.  The main loop writes proper replies only.  From its call or
    from the completion of a wait, up to its next suspension or its end, [run]
    changes the store in one
    way only: it appends replies to the history and to the CS-to-agent queue
    of its own queue object, and calls waits on its agent-to-CS side.  Every
    reply is written by CS, is not empty and is not a command; there are at
    most as many replies as lines were read; the flag, the module variable and
    every other queue object are untouched. *)
Theorem run_writes_proper_replies_only
    (str_strip str_lower str_upper : string → string) (clock : nat → string)
    (fuel : nat) (o : Outcome) (self : CSSimulatorCLI.CLI) (stdin : list string)
    (g : Globals) (out : string) next self' stdin' g' out' :
  CSSimulatorCLI.queue self < length (heap g) →
  CSSimulatorCLI.run str_strip str_lower str_upper
    fuel clock self stdin g out = Some (next, self', stdin', g', out') ∨
  CSSimulatorCLI.run_resume str_strip str_lower str_upper
    fuel clock o self stdin g out = Some (next, self', stdin', g', out') →
  CSSimulatorCLI.queue self' = CSSimulatorCLI.queue self ∧
  stdin' `suffix_of` stdin ∧
  ∃ replies,
    replied str_lower (CSSimulatorCLI.queue self) g g' replies ∧
    length replies + length stdin' ≤ length stdin.
Proof.
  intros Hq [Hrun|Hrun]; [|eapply run_resume_replied; eassumption].
  unfold CSSimulatorCLI.run, CSSimulatorCLI.wait_for_customer_message_call in Hrun.
  simpl in Hrun.
  pose proof (replied_wait str_lower (CSSimulatorCLI.queue self) g) as Hw.
  destruct (status <$> _ !! _) as [[| |o']|];
    try (injection Hrun as <- <- <- <- <-; split; [reflexivity|];
         split; [reflexivity|]; exists []; split; [exact Hw | simpl; lia]).
  eapply run_resume_replied in Hrun;
    [|rewrite act_on_length; exact Hq].
  simpl in Hrun. destruct Hrun as (Hself & Hsuf & r & Hrep & Hlen).
  split; [exact Hself|]. split; [exact Hsuf|].
  exists r. split; [|exact Hlen].
  pose proof (replied_trans _ _ _ _ _ _ _ Hw Hrep) as Hall. exact Hall.
Qed.

Lemma run_writes_proper_replies_only_witness :
  let self := {| CSSimulatorCLI.queue := 0; CSSimulatorCLI.running := true |} in
  let g := {| heap := [init]; _global_queue := Some 0 |} in
  ∃ g' out',
    CSSimulatorCLI.run_resume (λ s, s) (λ s, s) (λ s, s) 3 (λ _, "t1")
        (Got (message_data AgentToCs "t0" "hello")) self
        [""; "We are sorry"; "unread"] g "" =
      Some (CSSimulatorCLI.Awaiting 0, self, ["unread"], g', out') ∧
    text <$> cs_to_agent (mq (queue_at 0 g')) = ["We are sorry"] ∧
    ∃ replies, replied (λ s, s) 0 g g' replies ∧ length replies + 1 ≤ 3.
Proof.
  intros self g. eexists _, _. split; [reflexivity|]. split; [reflexivity|].
  assert (CSSimulatorCLI.queue self < length (heap g)) as Hq by (simpl; lia).
  destruct (run_writes_proper_replies_only (λ s, s) (λ s, s) (λ s, s) (λ _, "t1") 3
              (Got (message_data AgentToCs "t0" "hello")) self
              [""; "We are sorry"; "unread"] g "" _ _ _ _ _ Hq (or_intror eq_refl))
    as (_ & _ & replies & Hrep & Hlen).
  exists replies. split; [exact Hrep | exact Hlen].
Defined.

(** X20.  [/history] ends the simulator once a message exists.  When a
    customer message has arrived and the history is not empty, typing
    [/history] makes [display_history] raise [KeyError('role')]; [run]
    catches it, prints "[Error] 'role'", cleans up and returns.  No reply has
    been sent for the customer message, and the lines typed after [/history]
    are not read. *)
Theorem history_command_ends_the_simulator
    (str_strip str_lower str_upper : string → string) (clock : nat → string)
    (fuel : nat) (o : Outcome) (customer_message : string)
    (self : CSSimulatorCLI.CLI) (line : string) (rest : list string)
    (g : Globals) (out : string) :
  CSSimulatorCLI.wait_for_customer_message_return o = Some customer_message →
  get_conversation_history (mq (queue_at (CSSimulatorCLI.queue self) g)) ≠ [] →
  str_lower (str_strip line) = "/history" →
  ∃ out1,
    CSSimulatorCLI.run_resume str_strip str_lower str_upper (S fuel) clock o self
        (line :: rest) g out =
      Some (CSSimulatorCLI.Ended, self, rest, g,
            CSSimulatorCLI.cleanup
              (print (nl +:+ nl +:+ "[Error] 'role'") out1)).
Proof.
  intros Ho Hh Hline. simpl. rewrite Ho, Hline.
  rewrite decide_False by discriminate. rewrite decide_True by reflexivity.
  rewrite (proj2 (display_history_needs_an_empty_history str_upper self g _) Hh).
  eexists. reflexivity.
Qed.

Lemma history_command_ends_the_simulator_witness :
  let self := {| CSSimulatorCLI.queue := 0; CSSimulatorCLI.running := true |} in
  let c := {| mq := send_from_agent "t0" "hello" MessageQueue_init; tasks := [] |} in
  let g := {| heap := [call_wait AgentToCs (Some 300%Q) c]; _global_queue := Some 0 |} in
  ∃ out1,
    CSSimulatorCLI.run_resume (λ s, s) (λ s, s) (λ s, s) 1 (λ _, "t1")
        (Got (message_data AgentToCs "t0" "hello")) self
        ["/history"; "We are sorry"] g "" =
      Some (CSSimulatorCLI.Ended, self, ["We are sorry"], g,
            CSSimulatorCLI.cleanup (print (nl +:+ nl +:+ "[Error] 'role'") out1)).
Proof.
  intros self c g.
  apply (history_command_ends_the_simulator (λ s, s) (λ s, s) (λ s, s) (λ _, "t1") 0
           (Got (message_data AgentToCs "t0" "hello")) "hello" self "/history"
           ["We are sorry"] g "" eq_refl); [discriminate | reflexivity].
Defined.

(** X21.  A timeout costs nothing.  When the simulator's wait times out and
    no customer message has been signalled, [run] prints its notice, reads no
    line, sends nothing, and is suspended again in a new wait of 300 seconds
    on the same queue, whose mailbox is unchanged. *)
Theorem timeout_round_waits_again
    (str_strip str_lower str_upper : string → string) (clock : nat → string)
    (fuel : nat) (self : CSSimulatorCLI.CLI) (stdin : list string)
    (g : Globals) (out : string) :
  CSSimulatorCLI.running self = true →
  CSSimulatorCLI.queue self < length (heap g) →
  ready AgentToCs (mq (queue_at (CSSimulatorCLI.queue self) g)) = false →
  let i := length (tasks (queue_at (CSSimulatorCLI.queue self) g)) in
  let g' := act_on (CSSimulatorCLI.queue self) (CallWait AgentToCs (Some 300%Q)) g in
  CSSimulatorCLI.run_resume str_strip str_lower str_upper (S fuel) clock TimedOut
      self stdin g out =
    Some (CSSimulatorCLI.Awaiting i, self, stdin, g',
          print (nl +:+ "[Timeout] No customer message received. Still waiting...") out) ∧
  status_of i (queue_at (CSSimulatorCLI.queue self) g') = Some Parked ∧
  mq (queue_at (CSSimulatorCLI.queue self) g') =
    mq (queue_at (CSSimulatorCLI.queue self) g).
Proof.
  intros Hrun Hq Hr i g'.
  assert (queue_at (CSSimulatorCLI.queue self) g' =
          {| mq := mq (queue_at (CSSimulatorCLI.queue self) g);
             tasks := tasks (queue_at (CSSimulatorCLI.queue self) g) ++
                      [{| waits_on := AgentToCs; timer := Some 300%Q;
                          status := Parked |}] |}) as E.
  { subst g'. rewrite queue_at_act_on_same by exact Hq. simpl.
    rewrite (call_wait_positive AgentToCs 300%Q _) by reflexivity.
    rewrite Hr. reflexivity. }
  split.
  - simpl. rewrite Hrun. unfold CSSimulatorCLI.wait_for_customer_message_call.
    fold g'. fold i. rewrite E. simpl. subst i. rewrite lookup_new_task.
    reflexivity.
  - rewrite E. unfold status_of; simpl. subst i. rewrite lookup_new_task.
    split; reflexivity.
Qed.

Lemma timeout_round_waits_again_witness :
  let self := {| CSSimulatorCLI.queue := 0; CSSimulatorCLI.running := true |} in
  let g := {| heap := [init]; _global_queue := Some 0 |} in
  ∃ g' out',
    CSSimulatorCLI.run_resume (λ s, s) (λ s, s) (λ s, s) 1 (λ _, "t1") TimedOut
        self ["typed too early"] g "" =
      Some (CSSimulatorCLI.Awaiting 0, self, ["typed too early"], g', out') ∧
    mq (queue_at 0 g') = MessageQueue_init.
Proof.
  intros self g.
  assert (CSSimulatorCLI.queue self < length (heap g)) as Hq by (simpl; lia).
  destruct (timeout_round_waits_again (λ s, s) (λ s, s) (λ s, s) (λ _, "t1") 0 self
              ["typed too early"] g "" eq_refl Hq eq_refl) as (Hres & _ & Hmq).
  eexists _, _. split; [exact Hres | exact Hmq].
Defined.
